(** * TIMEPASS_BUDDY: the numerical scripts, embedded and verified

    The repository is a handful of independent Python scripts; each one
    evaluates a closed formula on Python floats and numpy arrays.  This file
    embeds four of their functions

      - [calculate_hhi]                     (Herfindahl-Hirschman Index)
      - [macaulay_duration]                 (MacD.py)
      - [simulate_transverse_expansion]     (SpaceCharge_Beam_Expansion.py)
      - [calculate_relativistic_properties] (relativistic energy and momentum)

    together with the example driver of the space-charge script.

    Every function is written once, over an interface [Arith] of the float
    operations the source uses, and read at two instances:

      - [Exact]    : the real numbers, i.e. the formulas without rounding;
      - [Binary64] : IEEE-754 binary64, the type Python and numpy compute
                     with, through Rocq's primitive floats.

    Properties of all inputs are proved at [Exact] (or for every instance,
    when they do not depend on the arithmetic); [Binary64] runs the code on
    concrete inputs and shows where rounding and overflow depart from the
    formulas. *)

From Stdlib Require Import Reals RList Lra Lia ZArith Bool String List Sorted.
From Stdlib Require Import Permutation.
From Stdlib Require Import Floats.
Import ListNotations.

Set Implicit Arguments.
#[local] Set Warnings "-inexact-float".

(** ** Python outcomes *)

(** The exceptions the embedded code can raise. *)
Inductive exn : Type :=
| ValueError (msg : string)
| ZeroDivisionError
| OverflowError.

(** What evaluating a Python expression gives: a value, a raised exception,
    or a value outside this development ([Unmodelled]: a complex number, or a
    call of the C library's [pow] that the binary64 instance does not
    compute). *)
Inductive result (A : Type) : Type :=
| Ok (a : A)
| Raise (e : exn)
| Unmodelled (why : string).

Arguments Raise {A} e.
Arguments Unmodelled {A} why.

Definition bind {A B : Type} (r : result A) (k : A -> result B) : result B :=
  match r with
  | Ok a => k a
  | Raise e => Raise e
  | Unmodelled w => Unmodelled w
  end.

Notation "x <- r ;; k" := (bind r (fun x => k))
  (at level 61, r at next level, right associativity).

(** The loop [for x in xs: ys.append(f x)], stopping at the first exception. *)
Fixpoint map_result {A B : Type} (f : A -> result B) (xs : list A)
  : result (list B) :=
  match xs with
  | [] => Ok []
  | x :: xs' => y <- f x ;; ys <- map_result f xs' ;; Ok (y :: ys)
  end.

(** ** Decimal literals

    A literal of the source is kept as written; each instance gives it its
    value.  [1.602176634e-19] is mantissa [1602176634], exponent [-28]. *)
Module Lit.

Inductive t : Set := Dec (d : Decimal.decimal).

Definition of_number (n : Number.number) : option t :=
  match n with
  | Number.Decimal d => Some (Dec d)
  | Number.Hexadecimal _ => None
  end.

Definition to_number (l : t) : Number.number :=
  match l with Dec d => Number.Decimal d end.

(** The digits of the literal, read as one integer. *)
Definition mantissa (l : t) : Z :=
  match l with
  | Dec (Decimal.Decimal i f) | Dec (Decimal.DecimalExp i f _) =>
      Z.of_int (Decimal.app_int i f)
  end.

(** The power of ten that scales [mantissa]. *)
Definition exponent (l : t) : Z :=
  match l with
  | Dec (Decimal.Decimal _ f) => - Z.of_nat (Decimal.nb_digits f)
  | Dec (Decimal.DecimalExp _ f e) =>
      Z.of_int e - Z.of_nat (Decimal.nb_digits f)
  end.

End Lit.

Declare Scope lit_scope.
Delimit Scope lit_scope with lit.
Number Notation Lit.t Lit.of_number Lit.to_number : lit_scope.

(** ** The arithmetic interface *)

Class Arith (F : Type) : Type := {
  (** a decimal literal, or an [int] converted to [float] *)
  lit : Lit.t -> F;
  (** [float(n)] for a Python [int] *)
  of_int : Z -> F;
  (** [np.pi] *)
  pi : F;
  (** [+ - * /] and [sqrt] as IEEE-754 and numpy have them: total *)
  add : F -> F -> F;
  sub : F -> F -> F;
  mul : F -> F -> F;
  div : F -> F -> F;
  sqrt : F -> F;
  (** [==] and [<=] *)
  eqb : F -> F -> bool;
  leb : F -> F -> bool;
  (** [x ** y] on two Python floats *)
  pow : F -> F -> result F
}.

Declare Scope arith_scope.
Delimit Scope arith_scope with A.
Infix "+" := add : arith_scope.
Infix "-" := sub : arith_scope.
Infix "*" := mul : arith_scope.
Infix "/" := div : arith_scope.
Infix "==" := eqb (at level 70, no associativity) : arith_scope.
Infix "<=?" := leb : arith_scope.
Infix "**" := pow (at level 30, right associativity) : arith_scope.

(** ** Instance 1: exact real arithmetic *)

Module Exact.

Local Open Scope R_scope.

(** [mantissa * 10 ^ exponent] as a real number. *)
Definition lit (l : Lit.t) : R :=
  let m := Lit.mantissa l in
  let e := Lit.exponent l in
  if (0 <=? e)%Z then IZR (m * 10 ^ e) else IZR m / IZR (10 ^ (- e)).

Definition eqb (x y : R) : bool := if Req_dec_T x y then true else false.
Definition leb (x y : R) : bool := if Rle_dec x y then true else false.

(** Python's [x ** y] on floats, without rounding: a positive base gives
    [exp (y * ln x)]; [0.0 ** y] is 0, 1 or a [ZeroDivisionError]; a
    negative base takes an integral exponent, and gives a complex number
    (not modelled) for any other. *)
Definition pow (x y : R) : result R :=
  if Rlt_dec 0 x then Ok (Rpower x y)
  else if Req_dec_T x 0 then
    if Rlt_dec 0 y then Ok 0
    else if Req_dec_T y 0 then Ok 1
    else Raise ZeroDivisionError
  else if Req_dec_T (frac_part y) 0 then
    Ok (if Z.even (Int_part y) then Rpower (- x) y else - Rpower (- x) y)
  else Unmodelled "complex".

#[global] Instance arith : Arith R := {
  lit := lit;
  of_int := IZR;
  pi := PI;
  add := Rplus;
  sub := Rminus;
  mul := Rmult;
  div := Rdiv;
  sqrt := R_sqrt.sqrt;
  eqb := eqb;
  leb := leb;
  pow := pow
}.

End Exact.

(** ** Instance 2: IEEE-754 binary64 *)

Module Binary64.

(** The binary64 value nearest to [z * 2^e]. *)
Definition round_Z (z e : Z) : spec_float :=
  binary_normalize prec emax z e false.

(** The binary64 value nearest to [(n * 2^en) / (d * 2^ed)], for [0 < d]. *)
Definition round_ratio (n en d ed : Z) : spec_float :=
  match n with
  | Z0 => S754_zero false
  | _ =>
      let '(q, e, l) := SFdiv_core_binary prec emax (Z.abs n) en d ed in
      binary_round_aux prec emax (n <? 0)%Z q e l
  end.

(** A decimal literal, correctly rounded, as Python reads it. *)
Definition lit (l : Lit.t) : float :=
  let m := Lit.mantissa l in
  let e := Lit.exponent l in
  SF2Prim (if (0 <=? e)%Z then round_Z (m * 10 ^ e) 0
           else round_ratio m 0 (10 ^ (- e)) 0).

(** [float(n)], for an [int] within the range of binary64. *)
Definition of_int (z : Z) : float := SF2Prim (round_Z z 0).

(** [Some n] when [y] is the integer [n]. *)
Definition integral (y : float) : option Z :=
  match Prim2SF y with
  | S754_zero _ => Some 0%Z
  | S754_finite s m e =>
      if (0 <=? e)%Z then Some (cond_Zopp s (Zpos m * 2 ^ e))
      else if (Zpos m mod 2 ^ (- e) =? 0)%Z
           then Some (cond_Zopp s (Zpos m / 2 ^ (- e)))
           else None
  | _ => None
  end.

(** [(m * 2^e) ^ n] for [0 < m] and an integer [n <> 0], rounded once and
    given the sign [s]. *)
Definition pow_finite (s : bool) (m : positive) (e n : Z) : spec_float :=
  if (0 <? n)%Z
  then round_Z (cond_Zopp s (Zpos m ^ n)) (e * n)
  else round_ratio (cond_Zopp s 1) 0 (Zpos m ^ (- n)) (e * (- n)).

Definition signed_zero (s : bool) : float := SF2Prim (S754_zero s).
Definition signed_inf (s : bool) : float := SF2Prim (S754_infinity s).

(** Python's [x ** y] on floats (CPython's [float_pow]), for an integral
    exponent: the special cases in the order CPython takes them, then the
    C library's [pow], modelled as the correctly rounded power, with
    [OverflowError] when a finite base gives an infinite result.  A
    non-integral exponent on a positive base other than 1 is left to the C
    library and is not computed here; on a negative base it gives a
    complex number. *)
Definition pow (x y : float) : result float :=
  if PrimFloat.eqb y 0 then Ok 1%float
  else if PrimFloat.is_nan x then Ok nan
  else if PrimFloat.is_nan y then Ok (if PrimFloat.eqb x 1 then 1%float else nan)
  else if PrimFloat.is_infinity y then
    let ax := PrimFloat.abs x in
    if PrimFloat.eqb ax 1 then Ok 1%float
    else if Bool.eqb (PrimFloat.ltb 0 y) (PrimFloat.ltb 1 ax)
         then Ok infinity else Ok 0%float
  else
    match Prim2SF x, integral y with
    | S754_infinity s, Some n =>
        Ok (if (0 <? n)%Z then signed_inf (s && Z.odd n)
            else signed_zero (s && Z.odd n))
    | S754_infinity s, None =>
        Ok (if PrimFloat.ltb 0 y then infinity else 0%float)
    | S754_zero s, Some n =>
        if (n <? 0)%Z then Raise ZeroDivisionError
        else Ok (signed_zero (s && Z.odd n))
    | S754_zero s, None =>
        if PrimFloat.ltb y 0 then Raise ZeroDivisionError else Ok 0%float
    | S754_finite s m e, Some n =>
        if PrimFloat.eqb (PrimFloat.abs x) 1
        then Ok (if s && Z.odd n then (-1)%float else 1%float)
        else
          match pow_finite (s && Z.odd n) m e n with
          | S754_infinity _ => Raise OverflowError
          | r => Ok (SF2Prim r)
          end
    | S754_finite true _ _, None => Unmodelled "complex"
    | S754_finite false _ _, None =>
        if PrimFloat.eqb x 1 then Ok 1%float else Unmodelled "libm pow"
    | S754_nan, _ => Ok nan
    end.

(** The real number a finite binary64 value stands for (0 for the others). *)
Definition to_R (x : float) : R :=
  match Prim2SF x with
  | S754_finite s m e =>
      if (0 <=? e)%Z then IZR (cond_Zopp s (Zpos m) * 2 ^ e)
      else (IZR (cond_Zopp s (Zpos m)) / IZR (2 ^ (- e)))%R
  | _ => 0%R
  end.

(** The integer nearest to [n / d] for [0 < d], ties to even. *)
Definition round_half_even (n d : Z) : Z :=
  let q := (n / d)%Z in
  match (2 * (n mod d) ?= d)%Z with
  | Lt => q
  | Gt => (q + 1)%Z
  | Eq => if Z.even q then q else (q + 1)%Z
  end.

(** [f"{x:.<digits>f}"]: the decimal nearest to the exact value of [x], given
    as the integer of its digits ([1.0] printed to 3 places is [1000]); [None]
    for [inf] and [nan]. *)
Definition format_fixed (digits : nat) (x : float) : option Z :=
  match Prim2SF x with
  | S754_zero _ => Some 0%Z
  | S754_finite s m e =>
      let n := (Zpos m * 10 ^ Z.of_nat digits)%Z in
      Some (cond_Zopp s (if (0 <=? e)%Z then (n * 2 ^ e)%Z
                         else round_half_even n (2 ^ (- e))))
  | _ => None
  end.

#[global] Instance arith : Arith float := {
  lit := lit;
  of_int := of_int;
  pi := lit 3.141592653589793%lit;
  add := PrimFloat.add;
  sub := PrimFloat.sub;
  mul := PrimFloat.mul;
  div := PrimFloat.div;
  sqrt := PrimFloat.sqrt;
  eqb := PrimFloat.eqb;
  leb := PrimFloat.leb;
  pow := pow
}.

End Binary64.

Bind Scope lit_scope with Lit.t.

(** ** The embedded code

    Scalar arguments are Python floats and sequences are Python lists, as in
    the example drivers, so [/] and [**] on scalars raise as Python's do;
    operations on numpy arrays ([np.sum], [np.sqrt], elementwise [* / **])
    never raise.  [z_points_m] is the numpy array its docstring asks for.
    [calculate_hhi] alone distinguishes the two kinds of sequence, because its
    first test does. *)

(** The argument of a function documented as taking a "list or numpy array":
    the same elements, but the two kinds answer [not a] differently. *)
Inductive py_seq (F : Type) : Type :=
| PyList (xs : list F)
| NdArray (xs : list F).

Definition elements {F : Type} (a : py_seq F) : list F :=
  match a with PyList xs | NdArray xs => xs end.

Section Code.

Context {F : Type} {arith : Arith F}.
Local Open Scope arith_scope.

(** Python's [x / y] on two floats. *)
Definition truediv (x y : F) : result F :=
  if y == lit 0 then Raise ZeroDivisionError else Ok (x / y).

(** [np.sum] of a one-dimensional array, adding from the left.  (numpy adds
    arrays of 8 and more elements in blocks; in exact arithmetic the order
    does not matter, and the binary64 evaluations below use short
    arrays.) *)
Definition np_sum (xs : list F) : F := fold_left add xs (lit 0).

(** [not a]: a list is false when empty; numpy takes the truth value of a
    one-element array from its element and raises on an array of two or more
    elements (and, since NumPy 2.2, on an empty one, which earlier versions
    took as false with a deprecation warning). *)
Definition py_not (a : py_seq F) : result bool :=
  match a with
  | PyList [] => Ok true
  | PyList (_ :: _) => Ok false
  | NdArray [x] => Ok (x == lit 0)
  | NdArray [] =>
      Raise (ValueError
        "The truth value of an empty array is ambiguous. Use `array.size > 0` to check that an array is not empty.")
  | NdArray (_ :: _ :: _) =>
      Raise (ValueError
        "The truth value of an array with more than one element is ambiguous. Use a.any() or a.all()")
  end.

(** *** Herfindahl-Hirschman Index *)

Definition calculate_hhi (market_shares : py_seq F) : result F :=
  empty <- py_not market_shares ;;
  if empty then Ok (lit 0.0) else
  let shares_array := elements market_shares in
  let total_market_size := np_sum shares_array in
  if total_market_size == lit 0 then Ok (lit 0.0) else
  let percentage_shares :=
    map (fun s => (s / total_market_size) * lit 100) shares_array in
  let squared_shares := map (fun p => p * p) percentage_shares in
  let hhi := np_sum squared_shares in
  Ok hhi.

(** *** MacD.py *)

Definition length_message : string :=
  "The 'cash_flows' and 'times' arrays must have the same length.".

(** The body of the loop: [pv = cf / ((1 + ytm) ** t)]. *)
Definition present_value (ytm : F) (p : F * F) : result F :=
  let (cf, t) := p in
  d <- (lit 1 + ytm) ** t ;;
  truediv cf d.

Definition macaulay_duration (cash_flows times : list F) (ytm : F)
  : result F :=
  if negb (length cash_flows =? length times)%nat
  then Raise (ValueError length_message) else
  present_values <-
    map_result (present_value ytm) (combine cash_flows times) ;;
  let pv_array := present_values in
  let times_array := times in
  let total_present_value := np_sum pv_array in
  if total_present_value == lit 0 then Ok (lit 0.0) else
  let weighted_pv_components :=
    map (fun p => fst p * snd p) (combine times_array pv_array) in
  let sum_weighted_pv := np_sum weighted_pv_components in
  let macd := sum_weighted_pv / total_present_value in
  Ok macd.

(** *** SpaceCharge_Beam_Expansion.py *)

Definition E_CHARGE : F := lit 1.602176634e-19.
Definition E_MASS_KG : F := lit 9.10938356e-31.
Definition EPSILON_0 : F := lit 8.854187817e-12.
Definition C_LIGHT : F := lit 299792458.0.

Definition simulate_transverse_expansion
  (initial_radius_m initial_charge_c gamma : F) (z_points_m : list F)
  : result (list F) :=
  cg3 <- (C_LIGHT * gamma) ** lit 3 ;;
  B <- truediv (lit 2.0 * E_CHARGE)
               (lit 4.0 * pi * EPSILON_0 * E_MASS_KG * cg3) ;;
  r2 <- initial_radius_m ** lit 2 ;;
  k_g <- truediv (B * initial_charge_c) r2 ;;
  let radius_expansion :=
    map (fun z =>
           let kz := k_g * z in
           initial_radius_m * sqrt (lit 1.0 + kz * kz))
        z_points_m in
  Ok radius_expansion.

(** [np.linspace(start, stop, num)]: [arange(0, num) * step + start], the
    last element then set to [stop]. *)
Definition linspace (start stop : F) (num : nat) : list F :=
  let divisor := (num - 1)%nat in
  let delta := stop - start in
  let y := map (fun i => of_int (Z.of_nat i)) (seq 0 num) in
  let y :=
    if (0 <? divisor)%nat then
      let step := delta / of_int (Z.of_nat divisor) in
      if step == lit 0
      then map (fun v => (v / of_int (Z.of_nat divisor)) * delta) y
      else map (fun v => v * step) y
    else map (fun v => v * delta) y in
  let y := map (fun v => v + start) y in
  if (1 <? num)%nat then removelast y ++ [stop] else y.

(** The example driver, part 2. *)
Definition CHARGE : F := lit 100e-12.
Definition R_INITIAL : F := lit 1e-3.
Definition GAMMA : F := lit 20.0.
Definition DRIFT_DISTANCE : F := lit 1.0.

Definition z_points : list F := linspace (lit 0) DRIFT_DISTANCE 11.

Definition r_expansion : result (list F) :=
  simulate_transverse_expansion CHARGE R_INITIAL GAMMA z_points.

(** The rows the driver prints: [z] and [r * 1000.0], before formatting. *)
Definition table_rows (zs rs : list F) : list (F * F) :=
  map (fun p => (fst p, snd p * lit 1000.0)) (combine zs rs).

Definition example_table : result (list (F * F)) :=
  rs <- r_expansion ;; Ok (table_rows z_points rs).

(** *** relativistic energy and momentum of the accelerated electrons.py *)

Definition JOULES_PER_EV : F := lit 1.602176634e-19.

Definition E_REST_J : result F :=
  c2 <- C_LIGHT ** lit 2 ;; Ok (E_MASS_KG * c2).

Definition E_REST_MEV : result F :=
  j <- E_REST_J ;;
  ev <- truediv j JOULES_PER_EV ;;
  truediv ev (lit 1e6).

Record properties : Type := {
  gamma : F;
  beta : F;
  momentum_mevc : F
}.

(** The operand of the square root: [1.0 - (1.0 / gamma**2)]. *)
Definition beta_radicand (gamma : F) : result F :=
  g2 <- gamma ** lit 2 ;;
  q <- truediv (lit 1.0) g2 ;;
  Ok (lit 1.0 - q).

Definition beta_of_gamma (gamma : F) : result F :=
  if gamma <=? lit 1 then Ok (lit 0.0)
  else x <- beta_radicand gamma ;; Ok (sqrt x).

Definition calculate_relativistic_properties (energy_gev : F)
  : result properties :=
  rest <- E_REST_MEV ;;
  let energy_mev := energy_gev * lit 1000.0 in
  gamma <- truediv energy_mev rest ;;
  beta <- beta_of_gamma gamma ;;
  let momentum_mevc := gamma * rest * beta in
  Ok {| gamma := gamma; beta := beta; momentum_mevc := momentum_mevc |}.

End Code.


Arguments properties : clear implicits.

(** ** The example of the space-charge script, as the specification reads it

    What the specification says the driver prints: the model evaluated with
    an initial radius of 1 mm ([R_INITIAL]) and a bunch charge of 100 pC
    ([CHARGE]), in this order of arguments. *)
Definition spec_example_table {F : Type} {arith : Arith F}
  : result (list (F * F)) :=
  rs <- simulate_transverse_expansion R_INITIAL CHARGE GAMMA z_points ;;
  Ok (table_rows z_points rs).

(** The table as printed: [f"{z:.2f} | {r*1000.0:.3f}"] for each row. *)
Definition printed (rows : list (float * float))
  : list (option Z * option Z) :=
  map (fun p => (Binary64.format_fixed 2 (fst p),
                 Binary64.format_fixed 3 (snd p))) rows.

(** ** Auxiliary definitions for the proofs in exact arithmetic *)

(** The sum of a list of reals, from the right. *)
Fixpoint Rsum (xs : list R) : R :=
  match xs with
  | [] => 0%R
  | x :: xs' => (x + Rsum xs')%R
  end.

(** The rest energy of the electron in MeV, [E_REST_MEV] without rounding:
    about 0.511. *)
Definition rest_mev : R :=
  (Exact.lit 9.10938356e-31 * (Exact.lit 299792458.0 * Exact.lit 299792458.0)
   / Exact.lit 1.602176634e-19 / Exact.lit 1e6)%R.

(** The growth-rate constant [k_g] of the expansion model without rounding. *)
Definition growth_rate (r0 q g : R) : R :=
  (2 * Exact.lit 1.602176634e-19
   / (4 * PI * Exact.lit 8.854187817e-12 * Exact.lit 9.10938356e-31
      * ((Exact.lit 299792458.0 * g) * (Exact.lit 299792458.0 * g)
         * (Exact.lit 299792458.0 * g)))
   * q / (r0 * r0))%R.

(** The radius the expansion model gives at drift distance [z], without
    rounding. *)
Definition radius_at (r0 q g z : R) : R :=
  (r0 * R_sqrt.sqrt (1 + growth_rate r0 q g * z * (growth_rate r0 q g * z)))%R.

(** The printed form of a table, when the driver gets to print it. *)
Definition printed_table (t : result (list (float * float)))
  : result (list (option Z * option Z)) :=
  rows <- t ;; Ok (printed rows).

(** ** More of the code

    The functions and drivers the sections above leave out, over the same
    interface extended by the operations they add: unary minus and [<]
    ([ArithExt]) and [np.exp] ([ArithExp], which only the real numbers
    provide here). *)

Class ArithExt (F : Type) : Type := {
  (** [-x] *)
  neg : F -> F;
  (** [x < y] *)
  less : F -> F -> bool
}.

Class ArithExp (F : Type) : Type := {
  (** [np.exp] *)
  np_exp : F -> F
}.

Definition exact_less (x y : R) : bool := if Rlt_dec x y then true else false.

#[global] Instance exact_ext : ArithExt R := {
  neg := Ropp;
  less := exact_less
}.

#[global] Instance exact_exp : ArithExp R := {
  np_exp := Rtrigo_def.exp
}.

#[global] Instance b64_ext : ArithExt float := {
  neg := PrimFloat.opp;
  less := PrimFloat.ltb
}.

Section MoreCode.

Context {F : Type} {arith : Arith F} {ext : ArithExt F}.
Local Open Scope arith_scope.

(** *** The driver of the HHI script: the label it prints *)
Definition concentration_level (hhi_value : F) : string :=
  if less hhi_value (lit 1500) then "Unconcentrated"
  else if hhi_value <=? lit 2500 then "Moderately Concentrated"
  else "Highly Concentrated".

(** *** SpaceCharge_Beam_Expansion.py, part 1 *)
Definition calculate_space_charge_limit
  (voltage_v distance_m cathode_area_m2 : F) : result F :=
  c49 <- truediv (lit 4.0) (lit 9.0) ;;
  em <- truediv (lit 2 * E_CHARGE) E_MASS_KG ;;
  let perveance_constant_k := c49 * EPSILON_0 * sqrt em in
  v15 <- voltage_v ** lit 1.5 ;;
  d2 <- distance_m ** lit 2 ;;
  ad <- truediv cathode_area_m2 d2 ;;
  let i_max := perveance_constant_k * v15 * ad in
  Ok i_max.

(** *** Gaussian Beam Profile Fitter.py: the model function

    [x] is the array of positions; the three parameters are Python floats,
    as in the call that builds the synthetic profile. *)
Definition gaussian {expo : ArithExp F}
  (x : list F) (amplitude center_x sigma : F) : result (list F) :=
  s2 <- sigma ** lit 2 ;;
  Ok (map (fun xi =>
             let d := xi - center_x in
             amplitude * np_exp (neg (d * d) / (lit 2 * s2)))
          x).

End MoreCode.

(** The perveance constant [K] without rounding. *)
Definition perveance : R :=
  (4 / 9 * Exact.lit 8.854187817e-12
   * R_sqrt.sqrt (2 * Exact.lit 1.602176634e-19 / Exact.lit 9.10938356e-31))%R.

(** ** Facts that hold at every instance *)

Section Generic.

Context {F : Type} {arith : Arith F}.
Local Open Scope arith_scope.

Lemma bind_Ok_inv {A B : Type} (r : result A) (k : A -> result B) (b : B) :
  (x <- r ;; k x) = Ok b -> exists a, r = Ok a /\ k a = Ok b.
Proof.
  destruct r as [a | e | w]; simpl; intros E; try discriminate.
  exists a. split; [reflexivity | exact E].
Qed.

Lemma truediv_Ok (x y : F) :
  (y == lit 0) = false -> truediv x y = Ok (x / y).
Proof. unfold truediv. intros ->. reflexivity. Qed.

Lemma truediv_not_ValueError (x y : F) (msg : string) :
  truediv x y <> Raise (ValueError msg).
Proof. unfold truediv. destruct (y == lit 0); discriminate. Qed.

(** A list argument never makes [calculate_hhi] raise. *)
Lemma calculate_hhi_list_returns (xs : list F) :
  exists h, calculate_hhi (PyList xs) = Ok h.
Proof.
  unfold calculate_hhi. destruct xs as [| x xs]; simpl.
  - eexists. reflexivity.
  - destruct (_ == _); eexists; reflexivity.
Qed.

Lemma calculate_hhi_empty : calculate_hhi (PyList (@nil F)) = Ok (lit 0.0).
Proof. reflexivity. Qed.

Lemma calculate_hhi_zero_total (xs : list F) :
  (np_sum xs == lit 0) = true -> calculate_hhi (PyList xs) = Ok (lit 0.0).
Proof.
  intros E. unfold calculate_hhi. destruct xs as [| x xs]; simpl.
  - reflexivity.
  - simpl in E. rewrite E. reflexivity.
Qed.

(** Outside the two guards the result is the sum of the squared
    percentage shares. *)
Lemma calculate_hhi_regular (xs : list F) :
  xs <> [] -> (np_sum xs == lit 0) = false ->
  calculate_hhi (PyList xs) =
  Ok (np_sum (map (fun p => p * p)
                  (map (fun s => (s / np_sum xs) * lit 100) xs))).
Proof.
  intros Hne E. unfold calculate_hhi. destruct xs as [| x xs]; [congruence |].
  simpl py_not. simpl bind. cbv iota. simpl elements. rewrite E. reflexivity.
Qed.

End Generic.

(** ** Running the code in binary64 *)

(** The literals of the source, as [Binary64.lit] rounds them, are the
    binary64 values Rocq's own reader gives for the same text. *)
Lemma b64_literals :
  map Binary64.lit
    [1.602176634e-19; 9.10938356e-31; 8.854187817e-12; 299792458.0;
     100e-12; 1e-3; 20.0; 1e6; 1000.0; 3.141592653589793]%lit =
  [1.602176634e-19; 9.10938356e-31; 8.854187817e-12; 299792458.0;
   100e-12; 1e-3; 20.0; 1e6; 1000.0; 3.141592653589793]%float.
Proof. vm_compute. reflexivity. Qed.

(** The worked example of the HHI script: 2850. *)
Lemma calculate_hhi_banks_b64 :
  calculate_hhi (PyList [40; 30; 15; 10; 5]%float) = Ok 2850%float.
Proof. vm_compute. reflexivity. Qed.

(** The worked example of MacD.py. *)
Lemma macaulay_duration_bond_b64 :
  macaulay_duration [80; 80; 1080]%float [1; 2; 3]%float 0.1%float =
  Ok 2.7773561037318153%float.
Proof. vm_compute. reflexivity. Qed.

(** The worked example of the relativistic script: 10 GeV. *)
Lemma relativistic_10_GeV_b64 :
  calculate_relativistic_properties 10%float =
  Ok {| gamma := 19569.512139720435; beta := 0.99999999869440037;
        momentum_mevc := 9999.9999869440035 |}%float.
Proof. vm_compute. reflexivity. Qed.

(** Beyond about 1.3e154 the square of the Lorentz factor overflows and
    Python raises. *)
Lemma relativistic_overflow_b64 :
  calculate_relativistic_properties 1e151%float = Raise OverflowError.
Proof. vm_compute. reflexivity. Qed.

(** An infinite entry makes every share [nan]. *)
Lemma calculate_hhi_infinite_entry_b64 :
  exists h, calculate_hhi (PyList [infinity]) = Ok h /\
            PrimFloat.is_nan h = true.
Proof. exists nan. split; vm_compute; reflexivity. Qed.

(** ** Exact arithmetic: the operations *)

Section ExactOps.

Local Open Scope R_scope.

Lemma exact_eqb_true (x y : R) : Exact.eqb x y = true <-> x = y.
Proof.
  unfold Exact.eqb. destruct (Req_dec_T x y); split; congruence.
Qed.

Lemma exact_eqb_false (x y : R) : Exact.eqb x y = false <-> x <> y.
Proof.
  unfold Exact.eqb. destruct (Req_dec_T x y); split; congruence.
Qed.

Lemma exact_leb_true (x y : R) : Exact.leb x y = true <-> x <= y.
Proof.
  unfold Exact.leb. destruct (Rle_dec x y); split; try congruence; tauto.
Qed.

Lemma exact_leb_false (x y : R) : Exact.leb x y = false <-> y < x.
Proof.
  unfold Exact.leb. destruct (Rle_dec x y); split; try congruence; lra.
Qed.

(** A literal with positive digits is a positive real. *)
Lemma exact_lit_pos (l : Lit.t) : (0 < Lit.mantissa l)%Z -> 0 < Exact.lit l.
Proof.
  intros Hm. unfold Exact.lit.
  destruct (Z.leb_spec 0 (Lit.exponent l)) as [He | He].
  - apply IZR_lt. apply Z.mul_pos_pos; [exact Hm |].
    apply Z.pow_pos_nonneg; lia.
  - apply Rdiv_lt_0_compat; apply IZR_lt; [exact Hm |].
    apply Z.pow_pos_nonneg; lia.
Qed.

Lemma exact_lit_zero (l : Lit.t) : Lit.mantissa l = 0%Z -> Exact.lit l = 0.
Proof.
  intros Hm. unfold Exact.lit. rewrite Hm.
  destruct (0 <=? Lit.exponent l)%Z.
  - rewrite Z.mul_0_l. reflexivity.
  - unfold Rdiv. apply Rmult_0_l.
Qed.

(** A literal without fraction or exponent is the integer it spells. *)
Lemma exact_lit_int (l : Lit.t) :
  Lit.exponent l = 0%Z -> Exact.lit l = IZR (Lit.mantissa l).
Proof.
  intros He. unfold Exact.lit. rewrite He. simpl. rewrite Z.mul_1_r.
  reflexivity.
Qed.

(** A literal with one zero after the point, as in [2.0]. *)
Lemma exact_lit_point_zero (l : Lit.t) (n : Z) :
  Lit.exponent l = (-1)%Z -> Lit.mantissa l = (10 * n)%Z ->
  Exact.lit l = IZR n.
Proof.
  intros He Hm. unfold Exact.lit. rewrite He, Hm.
  change (0 <=? -1)%Z with false. change (10 ^ (- -1))%Z with 10%Z.
  cbv beta iota zeta.
  rewrite mult_IZR. field.
Qed.

Lemma lit_0 : Exact.lit 0 = 0.
Proof. apply exact_lit_zero. reflexivity. Qed.

Lemma lit_0_0 : Exact.lit 0.0 = 0.
Proof. apply exact_lit_zero. reflexivity. Qed.

Lemma lit_1 : Exact.lit 1 = 1.
Proof. apply exact_lit_int. reflexivity. Qed.

Lemma lit_2 : Exact.lit 2 = 2.
Proof. apply exact_lit_int. reflexivity. Qed.

Lemma lit_3 : Exact.lit 3 = 3.
Proof. apply exact_lit_int. reflexivity. Qed.

Lemma lit_100 : Exact.lit 100 = 100.
Proof. apply exact_lit_int. reflexivity. Qed.

Lemma lit_1_0 : Exact.lit 1.0 = 1.
Proof. apply (exact_lit_point_zero _ 1); reflexivity. Qed.

Lemma lit_2_0 : Exact.lit 2.0 = 2.
Proof. apply (exact_lit_point_zero _ 2); reflexivity. Qed.

Lemma lit_4_0 : Exact.lit 4.0 = 4.
Proof. apply (exact_lit_point_zero _ 4); reflexivity. Qed.

Lemma lit_20_0 : Exact.lit 20.0 = 20.
Proof. apply (exact_lit_point_zero _ 20); reflexivity. Qed.

Lemma lit_1000_0 : Exact.lit 1000.0 = 1000.
Proof. apply (exact_lit_point_zero _ 1000); reflexivity. Qed.

(** [x ** 2] and [x ** 3] on a positive base are the products. *)
Lemma Rpower_2 (x : R) : 0 < x -> Rpower x 2 = x * x.
Proof.
  intros Hx. replace 2 with (1 + 1) by lra.
  rewrite Rpower_plus, Rpower_1 by exact Hx. reflexivity.
Qed.

Lemma Rpower_3 (x : R) : 0 < x -> Rpower x 3 = x * x * x.
Proof.
  intros Hx. replace 3 with (2 + 1) by lra.
  rewrite Rpower_plus, Rpower_2, Rpower_1 by exact Hx. reflexivity.
Qed.

Lemma exact_pow_pos (x y : R) : 0 < x -> Exact.pow x y = Ok (Rpower x y).
Proof.
  intros Hx. unfold Exact.pow. destruct (Rlt_dec 0 x); [reflexivity | lra].
Qed.

Lemma exact_pow_not_ValueError (x y : R) (msg : string) :
  Exact.pow x y <> Raise (ValueError msg).
Proof.
  unfold Exact.pow.
  repeat match goal with
         | |- context [if ?c then _ else _] => destruct c
         end; discriminate.
Qed.

Lemma Rpower_pos (x y : R) : 0 < Rpower x y.
Proof. unfold Rpower. apply exp_pos. Qed.

(** [np.sum] adds from the left; over the reals the order is immaterial. *)
Lemma fold_left_Rplus (xs : list R) (a : R) :
  fold_left Rplus xs a = a + Rsum xs.
Proof.
  revert a. induction xs as [| x xs IH]; intros a; simpl.
  - lra.
  - rewrite IH. lra.
Qed.

Lemma np_sum_exact (xs : list R) : np_sum xs = Rsum xs.
Proof.
  unfold np_sum. cbn [add lit Exact.arith].
  rewrite fold_left_Rplus, lit_0. lra.
Qed.

Lemma Rsum_app (xs ys : list R) : Rsum (xs ++ ys) = Rsum xs + Rsum ys.
Proof. induction xs as [| x xs IH]; simpl; lra. Qed.

Lemma Rsum_scal (a : R) (xs : list R) :
  Rsum (map (Rmult a) xs) = a * Rsum xs.
Proof. induction xs as [| x xs IH]; simpl; lra. Qed.

Lemma Rsum_nonneg (xs : list R) : Forall (Rle 0) xs -> 0 <= Rsum xs.
Proof.
  induction 1 as [| x xs Hx _ IH]; simpl; lra.
Qed.

Lemma Rsum_pos (xs : list R) : xs <> [] -> Forall (Rlt 0) xs -> 0 < Rsum xs.
Proof.
  intros Hne H. destruct H as [| x xs Hx Hxs]; [congruence |].
  simpl. assert (0 <= Rsum xs).
  { apply Rsum_nonneg. eapply Forall_impl; [| exact Hxs]. intros; lra. }
  lra.
Qed.

End ExactOps.

(** ** Herfindahl-Hirschman Index: the formula in exact arithmetic *)

Section HHI.

Local Open Scope R_scope.

Lemma Rsum_squares_nonneg (f : R -> R) (xs : list R) :
  0 <= Rsum (map (fun x => f x * f x) xs).
Proof.
  induction xs as [| x xs IH]; simpl; [lra |].
  pose proof (Rle_0_sqr (f x)) as Hsq. unfold Rsqr in Hsq. lra.
Qed.

Lemma Rsum_squared_shares (T : R) (xs : list R) :
  T <> 0 ->
  Rsum (map (fun p => p * p) (map (fun s => s / T * 100) xs)) =
  10000 * Rsum (map (fun x => x * x) xs) / (T * T).
Proof.
  intros HT. induction xs as [| x xs IH]; simpl.
  - field. exact HT.
  - rewrite IH. field. exact HT.
Qed.

(** The value of [calculate_hhi] outside its two guards. *)
Lemma calculate_hhi_exact (xs : list R) :
  xs <> [] -> Rsum xs <> 0 ->
  calculate_hhi (PyList xs) =
  Ok (10000 * Rsum (map (fun x => x * x) xs) / (Rsum xs * Rsum xs)).
Proof.
  intros Hne HT. rewrite calculate_hhi_regular.
  - rewrite !np_sum_exact. cbn [mul div lit Exact.arith].
    rewrite lit_100, Rsum_squared_shares by exact HT. reflexivity.
  - exact Hne.
  - cbn [eqb lit Exact.arith]. apply exact_eqb_false.
    rewrite np_sum_exact, lit_0. exact HT.
Qed.

(** For non-negative sizes the squares sum to at most the squared total. *)
Lemma Rsum_squares_le (xs : list R) :
  Forall (Rle 0) xs ->
  Rsum (map (fun x => x * x) xs) <= Rsum xs * Rsum xs.
Proof.
  induction 1 as [| x xs Hx Hxs IH]; simpl; [lra |].
  pose proof (Rsum_nonneg Hxs) as HS. nra.
Qed.

Lemma Rsum_deviation (c : R) (xs : list R) :
  Rsum (map (fun x => (x - c) * (x - c)) xs) =
  Rsum (map (fun x => x * x) xs) - 2 * c * Rsum xs
  + INR (length xs) * (c * c).
Proof.
  induction xs as [| x xs IH].
  - simpl. lra.
  - cbn [map Rsum length]. rewrite IH, S_INR. ring.
Qed.

(** The squared total is at most [n] times the sum of the squares. *)
Lemma Rsum_squares_ge (xs : list R) :
  Rsum xs * Rsum xs <= INR (length xs) * Rsum (map (fun x => x * x) xs).
Proof.
  destruct xs as [| x0 xs0]; [simpl; lra |].
  set (xs := x0 :: xs0).
  assert (Hn : 0 < INR (length xs)) by (apply lt_0_INR; simpl; lia).
  pose proof (Rsum_squares_nonneg (fun x => x - Rsum xs / INR (length xs)) xs)
    as Hdev.
  cbv beta in Hdev. rewrite Rsum_deviation in Hdev.
  replace (INR (length xs) *
           (Rsum xs / INR (length xs) * (Rsum xs / INR (length xs))))
    with (Rsum xs * Rsum xs / INR (length xs)) in Hdev by (field; lra).
  replace (2 * (Rsum xs / INR (length xs)) * Rsum xs)
    with (2 * (Rsum xs * Rsum xs / INR (length xs))) in Hdev by (field; lra).
  assert (Hq : Rsum xs * Rsum xs / INR (length xs)
               <= Rsum (map (fun x => x * x) xs)) by lra.
  apply (Rmult_le_compat_l (INR (length xs))) in Hq; [| lra].
  replace (INR (length xs) * (Rsum xs * Rsum xs / INR (length xs)))
    with (Rsum xs * Rsum xs) in Hq by (field; lra).
  exact Hq.
Qed.

Lemma Rsum_constant (c : R) (xs : list R) :
  (forall x, In x xs -> x = c) ->
  Rsum xs = INR (length xs) * c /\
  Rsum (map (fun x => x * x) xs) = INR (length xs) * (c * c).
Proof.
  induction xs as [| x xs IH]; intros Hc.
  - simpl. split; lra.
  - destruct IH as [IH1 IH2]; [intros y Hy; apply Hc; right; exact Hy |].
    cbn [map Rsum length]. rewrite S_INR, IH1, IH2, (Hc x (or_introl eq_refl)).
    split; ring.
Qed.

Lemma Rsum_zeros (n : nat) : Rsum (repeat 0 n) = 0.
Proof. induction n as [| n IH]; simpl; lra. Qed.

Lemma Rsum_squares_zeros (n : nat) :
  Rsum (map (fun x => x * x) (repeat 0 n)) = 0.
Proof. induction n as [| n IH]; simpl; lra. Qed.

(** One firm holding the whole market, among any number of empty ones. *)
Lemma calculate_hhi_single_firm (x : R) (a b : nat) :
  0 < x ->
  calculate_hhi (PyList (repeat 0 a ++ x :: repeat 0 b)) = Ok 10000.
Proof.
  intros Hx.
  assert (HT : Rsum (repeat 0 a ++ x :: repeat 0 b) = x).
  { rewrite Rsum_app. simpl. rewrite !Rsum_zeros. lra. }
  rewrite calculate_hhi_exact.
  - f_equal. rewrite HT, map_app, Rsum_app. simpl.
    rewrite !Rsum_squares_zeros. field. lra.
  - destruct a; discriminate.
  - rewrite HT. lra.
Qed.

End HHI.

(** ** Herfindahl-Hirschman Index: the claims *)

Section HHIClaims.

Local Open Scope R_scope.

(** Reading a binary64 value with a negative exponent as a fraction. *)
Lemma to_R_ratio (x : float) (s : bool) (m : positive) (e n d : Z) :
  Prim2SF x = S754_finite s m e -> (0 <=? e)%Z = false ->
  cond_Zopp s (Zpos m) = n -> (2 ^ (- e))%Z = d ->
  Binary64.to_R x = IZR n / IZR d.
Proof.
  intros Hx He Hn Hd. unfold Binary64.to_R. rewrite Hx, He, Hn, Hd.
  reflexivity.
Qed.

(** C3 (as amended).  In exact arithmetic, for every non-empty sequence of
    strictly positive market sizes of length [n], [calculate_hhi] returns a
    value [H] with [10000/n <= H <= 10000]; [H] is [10000/n] when all sizes
    are equal and [10000] when the sequence is a single firm. *)
Theorem hhi_bounds_exact (xs : list R) :
  xs <> [] -> Forall (Rlt 0) xs ->
  exists H, calculate_hhi (PyList xs) = Ok H /\
    10000 / INR (length xs) <= H <= 10000 /\
    ((forall x y, In x xs -> In y xs -> x = y) ->
     H = 10000 / INR (length xs)) /\
    (length xs = 1%nat -> H = 10000).
Proof.
  intros Hne Hpos.
  pose proof (Rsum_pos Hne Hpos) as HT.
  assert (Hnn : Forall (Rle 0) xs).
  { eapply Forall_impl; [| exact Hpos]. intros; lra. }
  assert (Hn : 0 < INR (length xs)).
  { apply lt_0_INR. destruct xs; [congruence | simpl; lia]. }
  pose proof (Rsum_squares_le Hnn) as Hup.
  pose proof (Rsum_squares_ge xs) as Hlow.
  set (T := Rsum xs) in *. set (Q := Rsum (map (fun x => x * x) xs)) in *.
  assert (HTT : 0 < T * T) by nra.
  exists (10000 * Q / (T * T)). split; [| split; [split |split]].
  - apply calculate_hhi_exact; [exact Hne | unfold T in *; lra].
  - apply Rmult_le_reg_r with (INR (length xs) * (T * T)); [nra |].
    replace (10000 / INR (length xs) * (INR (length xs) * (T * T)))
      with (10000 * (T * T)) by (field; lra).
    replace (10000 * Q / (T * T) * (INR (length xs) * (T * T)))
      with (10000 * (INR (length xs) * Q)) by (field; lra).
    lra.
  - apply Rmult_le_reg_r with (T * T); [exact HTT |].
    replace (10000 * Q / (T * T) * (T * T)) with (10000 * Q) by (field; lra).
    lra.
  - intros Hall. destruct xs as [| c xs']; [congruence |].
    destruct (Rsum_constant (c := c) (c :: xs')) as [E1 E2].
    { intros x Hx. apply Hall; [exact Hx | left; reflexivity]. }
    fold T in E1. fold Q in E2. rewrite E1, E2.
    assert (Hc : 0 < c) by (inversion Hpos; assumption).
    field. split; lra.
  - intros Hlen. destruct xs as [| c [| d xs']]; try discriminate.
    unfold Q, T. simpl. inversion Hpos; subst. field. lra.
Qed.

Lemma hhi_bounds_exact_witness :
  exists H, calculate_hhi (PyList [40; 30; 15; 10; 5]) = Ok H /\
    10000 / INR 5 <= H <= 10000 /\
    ((forall x y : R, In x [40; 30; 15; 10; 5] ->
                      In y [40; 30; 15; 10; 5] -> x = y) ->
     H = 10000 / INR 5) /\
    (length [40; 30; 15; 10; 5] = 1%nat -> H = 10000).
Proof.
  apply (@hhi_bounds_exact [40; 30; 15; 10; 5]).
  - discriminate.
  - repeat constructor; lra.
Defined.

(** C3 fails in binary64: three equal firms give 3333.3333333333326, below
    [10000/3], both as the exact value of the result and as the float that
    [10000/3] rounds to. *)
Lemma hhi_lower_bound_fails_b64 :
  exists H : float,
    calculate_hhi (PyList [1; 1; 1]%float) = Ok H /\
    Binary64.to_R H < 10000 / INR 3 /\
    PrimFloat.ltb H (10000 / 3)%float = true.
Proof.
  exists 3333.3333333333326%float. split; [| split].
  - vm_compute. reflexivity.
  - rewrite (@to_R_ratio 3333.3333333333326%float false
               7330077518506665%positive (-41)
               7330077518506665 2199023255552)
      by (vm_compute; reflexivity).
    simpl INR. lra.
  - vm_compute. reflexivity.
Qed.

(** C10 (as amended).  In exact arithmetic, for every list of real numbers,
    negative entries included, [calculate_hhi] returns a non-negative
    value. *)
Theorem hhi_nonneg_exact (xs : list R) :
  exists H, calculate_hhi (PyList xs) = Ok H /\ 0 <= H.
Proof.
  destruct xs as [| x0 xs0].
  - exists (lit 0.0). split; [reflexivity |].
    cbn [lit Exact.arith]. rewrite lit_0_0. lra.
  - set (xs := x0 :: xs0).
    destruct (Req_dec_T (Rsum xs) 0) as [HT | HT].
    + exists (lit 0.0). split.
      * apply calculate_hhi_zero_total. cbn [eqb lit Exact.arith].
        apply exact_eqb_true. rewrite np_sum_exact, lit_0. exact HT.
      * cbn [lit Exact.arith]. rewrite lit_0_0. lra.
    + eexists. split.
      * apply calculate_hhi_exact; [discriminate | exact HT].
      * pose proof (Rsum_squares_nonneg (fun x => x) xs) as HQ.
        cbv beta in HQ.
        assert (HTT : 0 < Rsum xs * Rsum xs) by nra.
        apply Rmult_le_reg_r with (Rsum xs * Rsum xs); [exact HTT |].
        replace (10000 * Rsum (map (fun x => x * x) xs)
                 / (Rsum xs * Rsum xs) * (Rsum xs * Rsum xs))
          with (10000 * Rsum (map (fun x => x * x) xs)) by (field; lra).
        lra.
Qed.

(** C10 fails in binary64 on a non-finite entry: for [[inf]] the only share
    is [inf / inf = nan], and the index returned is [nan], which is not
    [>= 0]. *)
Lemma hhi_nonneg_fails_b64 :
  exists h : float,
    calculate_hhi (PyList [infinity]) = Ok h /\
    PrimFloat.is_nan h = true /\ PrimFloat.leb 0 h = false.
Proof.
  exists nan.
  repeat match goal with |- _ /\ _ => split end; vm_compute; reflexivity.
Qed.

End HHIClaims.

(** C5.  On a list, at every instance, [calculate_hhi] returns exactly 0.0
    for the empty list and for a zero total ([[0, 0, 0]] in binary64 too),
    raises nothing, and otherwise returns the sum of the squared percentage
    shares.  On a numpy array of two or more elements, which the docstring
    admits as well, the test [not market_shares] raises [ValueError]:
    [np.array([0, 0, 0])] gets no 0.0 and [np.array([40, 30])] no index. *)
Theorem calculate_hhi_ndarray_raises :
  (forall (F : Type) (arith : Arith F),
     calculate_hhi (PyList (@nil F)) = Ok (lit 0.0)) /\
  (forall (F : Type) (arith : Arith F) (xs : list F),
     (np_sum xs == lit 0)%A = true ->
     calculate_hhi (PyList xs) = Ok (lit 0.0)) /\
  calculate_hhi (PyList [0; 0; 0]%float) = Ok 0%float /\
  (forall (F : Type) (arith : Arith F) (xs : list F),
     exists h, calculate_hhi (PyList xs) = Ok h) /\
  (forall (F : Type) (arith : Arith F) (xs : list F),
     xs <> [] -> (np_sum xs == lit 0)%A = false ->
     calculate_hhi (PyList xs) =
     Ok (np_sum (map (fun p => p * p)
                     (map (fun s => (s / np_sum xs) * lit 100) xs)))%A) /\
  (forall (F : Type) (arith : Arith F) (x y : F) (xs : list F),
     calculate_hhi (NdArray (x :: y :: xs)) =
     Raise (ValueError
       "The truth value of an array with more than one element is ambiguous. Use a.any() or a.all()")) /\
  calculate_hhi (NdArray [40; 30]%float) =
    Raise (ValueError
      "The truth value of an array with more than one element is ambiguous. Use a.any() or a.all()").
Proof.
  repeat split.
  - intros F arith xs. apply calculate_hhi_zero_total.
  - intros F arith xs. apply calculate_hhi_list_returns.
  - intros F arith xs. apply calculate_hhi_regular.
Qed.

(** ** Macaulay duration: the length check *)

Section MacDLength.

Context {F : Type} {arith : Arith F}.

(** What both instances satisfy: [**] raises no [ValueError]. *)
Hypothesis pow_not_ValueError :
  forall (x y : F) (msg : string), pow x y <> Raise (ValueError msg).

Lemma present_value_not_ValueError (ytm : F) (p : F * F) (msg : string) :
  present_value ytm p <> Raise (ValueError msg).
Proof.
  destruct p as [cf t]. unfold present_value.
  destruct (pow (add (lit 1) ytm) t) as [d | e | w] eqn:E; simpl.
  - apply truediv_not_ValueError.
  - intros H. injection H as ->. eapply pow_not_ValueError. exact E.
  - discriminate.
Qed.

Lemma present_values_not_ValueError (ytm : F) (ps : list (F * F))
  (msg : string) :
  map_result (present_value ytm) ps <> Raise (ValueError msg).
Proof.
  induction ps as [| p ps IH]; simpl; [discriminate |].
  destruct (present_value ytm p) as [v | e | w] eqn:E; simpl.
  - destruct (map_result (present_value ytm) ps) as [vs | e | w]; simpl;
      [discriminate | | discriminate].
    intros H. apply IH. exact H.
  - intros H. injection H as ->.
    eapply present_value_not_ValueError. exact E.
  - discriminate.
Qed.

(** C6.  [macaulay_duration] raises the [ValueError] with the message "The
    'cash_flows' and 'times' arrays must have the same length." when the two
    lengths differ, returning no duration; when they agree it raises no
    [ValueError] at all. *)
Theorem macaulay_duration_length_error (cash_flows times : list F) (ytm : F) :
  (length cash_flows <> length times ->
   macaulay_duration cash_flows times ytm =
   Raise (ValueError
     "The 'cash_flows' and 'times' arrays must have the same length.")) /\
  (length cash_flows = length times ->
   forall msg, macaulay_duration cash_flows times ytm
               <> Raise (ValueError msg)).
Proof.
  unfold macaulay_duration. split.
  - intros Hlen. apply Nat.eqb_neq in Hlen. rewrite Hlen. reflexivity.
  - intros Hlen msg. apply Nat.eqb_eq in Hlen. rewrite Hlen. simpl negb.
    cbv iota.
    destruct (map_result (present_value ytm) (combine cash_flows times))
      as [pvs | e | w] eqn:E; simpl.
    + destruct (eqb (np_sum pvs) (lit 0)); discriminate.
    + intros H. injection H as ->.
      eapply present_values_not_ValueError. exact E.
    + discriminate.
Qed.

End MacDLength.

Lemma b64_pow_not_ValueError (x y : float) (msg : string) :
  Binary64.pow x y <> Raise (ValueError msg).
Proof.
  unfold Binary64.pow.
  repeat match goal with
         | |- context [if ?c then _ else _] => destruct c
         | |- context [match ?c with _ => _ end] => destruct c
         end; discriminate.
Qed.

Lemma macaulay_duration_length_error_witness :
  macaulay_duration [80; 80; 1080]%float [1; 2]%float 0.1%float =
    Raise (ValueError
      "The 'cash_flows' and 'times' arrays must have the same length.") /\
  (forall msg,
     macaulay_duration [80; 80; 1080]%float [1; 2; 3]%float 0.1%float
     <> Raise (ValueError msg)).
Proof.
  split.
  - apply (proj1 (@macaulay_duration_length_error float Binary64.arith
                    b64_pow_not_ValueError
                    [80; 80; 1080]%float [1; 2]%float 0.1%float)).
    discriminate.
  - apply (proj2 (@macaulay_duration_length_error float Binary64.arith
                    b64_pow_not_ValueError
                    [80; 80; 1080]%float [1; 2; 3]%float 0.1%float)).
    reflexivity.
Defined.

(** ** Macaulay duration in exact arithmetic *)

Section MacDExact.

Local Open Scope R_scope.

Lemma exact_truediv (x y : R) :
  truediv x y = if Req_dec_T y 0 then Raise ZeroDivisionError else Ok (x / y).
Proof.
  unfold truediv. cbn [eqb lit div Exact.arith]. rewrite lit_0.
  unfold Exact.eqb. destruct (Req_dec_T y 0); reflexivity.
Qed.




(** The last two steps of [macaulay_duration], on the present values. *)
Lemma macaulay_duration_unfold (cfs ts : list R) (ytm : R) :
  length cfs = length ts ->
  macaulay_duration cfs ts ytm =
  (pvs <- map_result (present_value ytm) (combine cfs ts) ;;
   if Req_dec_T (Rsum pvs) 0 then Ok 0
   else Ok (Rsum (map (fun p => fst p * snd p) (combine ts pvs))
            / Rsum pvs)).
Proof.
  intros Hlen. unfold macaulay_duration.
  apply Nat.eqb_eq in Hlen. rewrite Hlen. simpl negb. cbv iota.
  destruct (map_result (present_value ytm) (combine cfs ts)) as [pvs | e | w];
    simpl; try reflexivity.
  rewrite !np_sum_exact. cbn [eqb lit div mul Exact.arith].
  rewrite lit_0, lit_0_0. unfold Exact.eqb.
  destruct (Req_dec_T (Rsum pvs) 0); reflexivity.
Qed.




(** With a positive base every present value exists and is positive. *)
Lemma present_values_positive (ytm : R) (cfs ts : list R) :
  0 < 1 + ytm -> Forall (Rlt 0) cfs -> length cfs = length ts ->
  exists pvs,
    map_result (present_value ytm) (combine cfs ts) = Ok pvs /\
    length pvs = length ts /\ Forall (Rlt 0) pvs.
Proof.
  intros Hy Hcf. revert ts.
  induction Hcf as [| cf cfs Hc Hcfs IH]; intros [| t ts] Hlen;
    try discriminate.
  - exists []. repeat split. constructor.
  - injection Hlen as Hlen. destruct (IH ts Hlen) as (pvs & E & Hl & Hp).
    exists (cf / Rpower (1 + ytm) t :: pvs).
    cbn [combine map_result]. rewrite E. unfold present_value.
    cbn [pow add lit Exact.arith]. rewrite lit_1, exact_pow_pos by exact Hy.
    simpl bind. rewrite exact_truediv.
    pose proof (Rpower_pos (1 + ytm) t) as Hd.
    destruct (Req_dec_T (Rpower (1 + ytm) t) 0); [lra |].
    simpl. repeat split.
    + rewrite Hl. reflexivity.
    + constructor; [| exact Hp]. apply Rdiv_lt_0_compat; assumption.
Qed.

(** A weighted sum with non-negative weights lies between the extreme
    values times the total weight. *)
Lemma weighted_between (lo hi : R) (ts pvs : list R) :
  length pvs = length ts -> Forall (Rlt 0) pvs ->
  (forall t, In t ts -> lo <= t <= hi) ->
  lo * Rsum pvs <= Rsum (map (fun p => fst p * snd p) (combine ts pvs))
  <= hi * Rsum pvs.
Proof.
  revert pvs. induction ts as [| t ts IH]; intros [| pv pvs] Hlen Hp Hb;
    try discriminate.
  - simpl. lra.
  - injection Hlen as Hlen. inversion Hp as [| ? ? Hpv Hpvs]; subst.
    destruct (IH pvs Hlen Hpvs) as [IH1 IH2].
    { intros u Hu. apply Hb. right. exact Hu. }
    destruct (Hb t (or_introl eq_refl)) as [Hlo Hhi].
    cbn [combine map Rsum fst snd]. split; nra.
Qed.

(** C9 (as amended).  In exact arithmetic, for equal-length non-empty
    sequences with strictly positive cash flows, non-negative times and
    [1 + ytm > 0], [macaulay_duration] returns a duration between the
    smallest and the largest of the times. *)
Theorem macaulay_duration_between_exact (cash_flows times : list R) (ytm : R) :
  length cash_flows = length times -> cash_flows <> [] ->
  Forall (Rlt 0) cash_flows -> Forall (Rle 0) times -> 0 < 1 + ytm ->
  exists D, macaulay_duration cash_flows times ytm = Ok D /\
            MinRlist times <= D <= MaxRlist times.
Proof.
  intros Hlen Hne Hcf _ Hy.
  destruct (@present_values_positive ytm cash_flows times Hy Hcf Hlen)
    as (pvs & E & Hl & Hp).
  assert (HV : 0 < Rsum pvs).
  { apply Rsum_pos; [| exact Hp].
    destruct pvs; [| discriminate].
    destruct cash_flows; [congruence |].
    rewrite <- Hlen in Hl. discriminate. }
  destruct (@weighted_between (MinRlist times) (MaxRlist times) times pvs
              Hl Hp) as [Hlo Hhi].
  { intros t Ht. split; [apply MinRlist_P1 | apply MaxRlist_P1]; exact Ht. }
  rewrite macaulay_duration_unfold, E by exact Hlen. simpl bind.
  destruct (Req_dec_T (Rsum pvs) 0); [lra |].
  eexists. split; [reflexivity |].
  set (S := Rsum (map (fun p => fst p * snd p) (combine times pvs))) in *.
  split.
  - apply Rmult_le_reg_r with (Rsum pvs); [exact HV |].
    replace (S / Rsum pvs * Rsum pvs) with S by (field; lra). exact Hlo.
  - apply Rmult_le_reg_r with (Rsum pvs); [exact HV |].
    replace (S / Rsum pvs * Rsum pvs) with S by (field; lra). exact Hhi.
Qed.

Lemma macaulay_duration_between_exact_witness :
  exists D, macaulay_duration [80; 80; 1080] [1; 2; 3] (1 / 10) = Ok D /\
            MinRlist [1; 2; 3] <= D <= MaxRlist [1; 2; 3].
Proof.
  apply macaulay_duration_between_exact.
  - reflexivity.
  - discriminate.
  - repeat constructor; lra.
  - repeat constructor; lra.
  - lra.
Defined.

(** C9 fails in binary64: three unit cash flows, all at time 0.1, have
    duration 0.10000000000000002, above the largest time, because
    0.1 + 0.1 + 0.1 rounds to 0.30000000000000004. *)
Lemma macaulay_duration_between_fails_b64 :
  macaulay_duration [1; 1; 1]%float [0.1; 0.1; 0.1]%float 0%float =
    Ok 0.10000000000000002%float /\
  PrimFloat.ltb 0.1 0.10000000000000002 = true /\
  PrimFloat.ltb 0 1 = true /\ PrimFloat.leb 0 0.1 = true /\
  PrimFloat.ltb 0 (1 + 0) = true.
Proof.
  repeat match goal with |- _ /\ _ => split end; vm_compute; reflexivity.
Qed.

End MacDExact.

(** ** Relativistic kinematics *)

Section Relativistic.

Local Open Scope R_scope.

Lemma rest_mev_pos : 0 < rest_mev.
Proof.
  unfold rest_mev.
  assert (Hm : 0 < Exact.lit 9.10938356e-31)
    by (apply exact_lit_pos; reflexivity).
  assert (Hc : 0 < Exact.lit 299792458.0)
    by (apply exact_lit_pos; reflexivity).
  assert (He : 0 < Exact.lit 1.602176634e-19)
    by (apply exact_lit_pos; reflexivity).
  assert (H6 : 0 < Exact.lit 1e6) by (apply exact_lit_pos; reflexivity).
  apply Rdiv_lt_0_compat; [| exact H6].
  apply Rdiv_lt_0_compat; [| exact He].
  apply Rmult_lt_0_compat; [exact Hm |].
  apply Rmult_lt_0_compat; exact Hc.
Qed.

(** The module-level constant is computed without an exception. *)
Lemma E_REST_MEV_exact : E_REST_MEV = Ok rest_mev.
Proof.
  unfold E_REST_MEV, E_REST_J, C_LIGHT, E_MASS_KG, JOULES_PER_EV.
  cbn [pow mul lit Exact.arith].
  assert (Hc : 0 < Exact.lit 299792458.0)
    by (apply exact_lit_pos; reflexivity).
  assert (He : 0 < Exact.lit 1.602176634e-19)
    by (apply exact_lit_pos; reflexivity).
  assert (H6 : 0 < Exact.lit 1e6) by (apply exact_lit_pos; reflexivity).
  rewrite lit_2, exact_pow_pos, Rpower_2 by exact Hc. simpl bind.
  rewrite exact_truediv.
  destruct (Req_dec_T (Exact.lit 1.602176634e-19) 0); [lra |]. simpl bind.
  rewrite exact_truediv. destruct (Req_dec_T (Exact.lit 1e6) 0); [lra |].
  reflexivity.
Qed.

(** The square-root operand for a Lorentz factor above 1. *)
Lemma beta_radicand_exact (g : R) :
  1 < g -> beta_radicand g = Ok (1 - 1 / (g * g)).
Proof.
  intros Hg. unfold beta_radicand. cbn [pow sub lit Exact.arith].
  rewrite lit_2, lit_1_0, exact_pow_pos, Rpower_2 by lra. simpl bind.
  rewrite exact_truediv. destruct (Req_dec_T (g * g) 0); [nra |].
  reflexivity.
Qed.

Lemma radicand_bounds (g : R) : 1 < g -> 0 < 1 - 1 / (g * g) < 1.
Proof.
  intros Hg. assert (Hgg : 1 < g * g) by nra.
  assert (Hinv : 0 < 1 / (g * g) < 1).
  { split.
    - apply Rdiv_lt_0_compat; lra.
    - apply Rmult_lt_reg_r with (g * g); [lra |].
      replace (1 / (g * g) * (g * g)) with 1 by (field; lra). lra. }
  lra.
Qed.

Lemma beta_of_gamma_exact (g : R) :
  beta_of_gamma g =
  Ok (if Rle_dec g 1 then 0 else R_sqrt.sqrt (1 - 1 / (g * g))).
Proof.
  unfold beta_of_gamma. cbn [leb lit sqrt Exact.arith].
  rewrite lit_1, lit_0_0. unfold Exact.leb.
  destruct (Rle_dec g 1); [reflexivity |].
  rewrite beta_radicand_exact by lra. reflexivity.
Qed.

(** [calculate_relativistic_properties] returns on every real input. *)
Lemma calculate_relativistic_properties_exact (e : R) :
  exists p, calculate_relativistic_properties e = Ok p /\
    gamma p = e * 1000 / rest_mev /\
    beta p = (if Rle_dec (gamma p) 1 then 0
              else R_sqrt.sqrt (1 - 1 / (gamma p * gamma p))).
Proof.
  unfold calculate_relativistic_properties.
  rewrite E_REST_MEV_exact. simpl bind. rewrite exact_truediv.
  pose proof rest_mev_pos as Hr.
  destruct (Req_dec_T rest_mev 0); [lra |]. simpl bind.
  rewrite beta_of_gamma_exact. simpl bind.
  eexists. split; [reflexivity |]. cbn [gamma beta mul lit Exact.arith].
  rewrite lit_1000_0. split; reflexivity.
Qed.

(** A literal with a negative power of ten is the fraction it spells. *)
Lemma exact_lit_fraction (l : Lit.t) (m d : Z) :
  Lit.mantissa l = m -> (0 <=? Lit.exponent l)%Z = false ->
  (10 ^ (- Lit.exponent l))%Z = d -> Exact.lit l = IZR m / IZR d.
Proof.
  intros Hm He Hd. unfold Exact.lit. rewrite Hm, He, Hd. reflexivity.
Qed.

(** The rest energy is about 0.511 MeV. *)
Lemma rest_mev_bounds : 51 / 100 < rest_mev < 52 / 100.
Proof.
  unfold rest_mev.
  rewrite (@exact_lit_fraction 9.10938356e-31%lit 910938356
             1000000000000000000000000000000000000000 eq_refl eq_refl eq_refl).
  rewrite (@exact_lit_fraction 299792458.0%lit 2997924580 10
             eq_refl eq_refl eq_refl).
  rewrite (@exact_lit_fraction 1.602176634e-19%lit 1602176634
             10000000000000000000000000000 eq_refl eq_refl eq_refl).
  change (Exact.lit 1e6) with 1000000.
  lra.
Qed.

(** C2 (as amended).  In exact arithmetic, for every energy above the rest
    energy of the electron ([energy_gev * 1000 > E_REST_MEV]) the function
    returns the Lorentz factor [energy_gev * 1000 / E_REST_MEV > 1] and
    [beta = sqrt (1 - 1 / gamma^2)] with [0 <= beta < 1]; and of two such
    energies the larger has the strictly larger [beta], still below 1. *)
Theorem beta_bounds_exact (e1 e2 : R) :
  rest_mev < e1 * 1000 -> e1 < e2 ->
  exists p1 p2,
    calculate_relativistic_properties e1 = Ok p1 /\
    calculate_relativistic_properties e2 = Ok p2 /\
    gamma p1 = e1 * 1000 / rest_mev /\ gamma p2 = e2 * 1000 / rest_mev /\
    1 < gamma p1 < gamma p2 /\
    beta p1 = R_sqrt.sqrt (1 - 1 / (gamma p1 * gamma p1)) /\
    beta p2 = R_sqrt.sqrt (1 - 1 / (gamma p2 * gamma p2)) /\
    0 <= beta p1 /\ beta p1 < beta p2 /\ beta p2 < 1.
Proof.
  intros Hrest He.
  destruct (calculate_relativistic_properties_exact e1)
    as (p1 & E1 & G1 & B1).
  destruct (calculate_relativistic_properties_exact e2)
    as (p2 & E2 & G2 & B2).
  exists p1, p2.
  pose proof rest_mev_pos as Hr.
  assert (Hg1 : 1 < gamma p1).
  { rewrite G1. apply Rmult_lt_reg_r with rest_mev; [exact Hr |].
    replace (e1 * 1000 / rest_mev * rest_mev) with (e1 * 1000)
      by (field; lra).
    lra. }
  assert (Hgg : gamma p1 < gamma p2).
  { rewrite G1, G2. apply Rmult_lt_compat_r; [| lra].
    apply Rinv_0_lt_compat. exact Hr. }
  destruct (Rle_dec (gamma p1) 1) as [Habs | _]; [lra |].
  destruct (Rle_dec (gamma p2) 1) as [Habs | _]; [lra |].
  assert (Hsqrt1 : forall g, 1 < g -> R_sqrt.sqrt (1 - 1 / (g * g)) < 1).
  { intros g Hg. destruct (radicand_bounds Hg) as [H0 H1].
    apply Rlt_le_trans with (R_sqrt.sqrt 1);
      [apply sqrt_lt_1_alt; lra | rewrite sqrt_1; lra]. }
  repeat match goal with |- _ /\ _ => split end;
    try assumption; try lra.
  - rewrite B1. apply sqrt_pos.
  - rewrite B1, B2.
    destruct (@radicand_bounds (gamma p1) Hg1) as [H0 _].
    apply sqrt_lt_1_alt. split; [lra |].
    assert (Hinv : 1 / (gamma p2 * gamma p2) < 1 / (gamma p1 * gamma p1)).
    { unfold Rdiv. rewrite !Rmult_1_l.
      assert (Hs1 : 0 < gamma p1 * gamma p1) by nra.
      assert (Hs2 : gamma p1 * gamma p1 < gamma p2 * gamma p2) by nra.
      apply Rinv_lt_contravar; [apply Rmult_lt_0_compat; lra | exact Hs2]. }
    lra.
  - rewrite B2. apply Hsqrt1. lra.
Qed.

Lemma beta_bounds_exact_witness :
  exists p1 p2,
    calculate_relativistic_properties 10 = Ok p1 /\
    calculate_relativistic_properties 20 = Ok p2 /\
    gamma p1 = 10 * 1000 / rest_mev /\ gamma p2 = 20 * 1000 / rest_mev /\
    1 < gamma p1 < gamma p2 /\
    beta p1 = R_sqrt.sqrt (1 - 1 / (gamma p1 * gamma p1)) /\
    beta p2 = R_sqrt.sqrt (1 - 1 / (gamma p2 * gamma p2)) /\
    0 <= beta p1 /\ beta p1 < beta p2 /\ beta p2 < 1.
Proof.
  pose proof rest_mev_bounds as Hb.
  apply beta_bounds_exact; lra.
Defined.

(** C2 fails in binary64: at 1e6 GeV the Lorentz factor is about 1.96e9,
    [1/gamma**2] is below half an ulp of 1, and [beta] is exactly 1.0; at
    4e4 and 5e4 GeV the two values of [beta] are equal. *)
Lemma beta_reaches_one_b64 :
  exists p p1 p2 : properties float,
    calculate_relativistic_properties 1e6%float = Ok p /\
    PrimFloat.ltb 1 (gamma p) = true /\
    PrimFloat.ltb (beta p) 1 = false /\ PrimFloat.eqb (beta p) 1 = true /\
    calculate_relativistic_properties 4e4%float = Ok p1 /\
    calculate_relativistic_properties 5e4%float = Ok p2 /\
    PrimFloat.ltb 1 (gamma p1) = true /\
    PrimFloat.ltb (beta p1) (beta p2) = false.
Proof.
  exists {| gamma := 1956951213.9720435; beta := 1;
            momentum_mevc := 1000000000 |}%float,
         {| gamma := 78278048.558881745; beta := 0.99999999999999989;
            momentum_mevc := 39999999.999999993 |}%float,
         {| gamma := 97847560.698602185; beta := 0.99999999999999989;
            momentum_mevc := 49999999.999999993 |}%float.
  repeat match goal with |- _ /\ _ => split end; vm_compute; reflexivity.
Qed.

End Relativistic.

(** C8.  Whenever the computed Lorentz factor is at most 1,
    [calculate_relativistic_properties] sets [beta] to exactly 0.0 without
    evaluating the square root (at every instance); and in exact arithmetic
    the function returns on every input, with a square-root operand that is
    non-negative whenever the square root is taken. *)
Theorem beta_guard :
  (forall (F : Type) (arith : Arith F) (energy_gev : F) (p : properties F),
     calculate_relativistic_properties energy_gev = Ok p ->
     (gamma p <=? lit 1)%A = true -> beta p = lit 0.0) /\
  (forall energy_gev : R,
     exists p, calculate_relativistic_properties energy_gev = Ok p /\
       (gamma p <= 1 -> beta p = 0)%R /\
       (1 < gamma p ->
        exists x, beta_radicand (gamma p) = Ok x /\ 0 <= x /\
                  beta p = R_sqrt.sqrt x)%R).
Proof.
  split.
  - intros F arith e p E Hg. unfold calculate_relativistic_properties in E.
    apply bind_Ok_inv in E. destruct E as (rest & _ & E).
    apply bind_Ok_inv in E. destruct E as (g & _ & E).
    apply bind_Ok_inv in E. destruct E as (b & Eb & E).
    injection E as <-. cbn [gamma beta] in *.
    unfold beta_of_gamma in Eb. rewrite Hg in Eb. injection Eb as <-.
    reflexivity.
  - intros e.
    destruct (calculate_relativistic_properties_exact e) as (p & E & G & B).
    exists p. split; [exact E | split].
    + intros Hg. rewrite B. destruct (Rle_dec (gamma p) 1); [reflexivity |].
      contradiction.
    + intros Hg. exists (1 - 1 / (gamma p * gamma p))%R.
      split; [apply beta_radicand_exact; exact Hg | split].
      * destruct (@radicand_bounds (gamma p) Hg). lra.
      * rewrite B. destruct (Rle_dec (gamma p) 1); [lra | reflexivity].
Qed.

Lemma beta_guard_witness :
  exists p : properties float,
    calculate_relativistic_properties 0.0001%float = Ok p /\
    PrimFloat.leb (gamma p) 1 = true /\ beta p = 0%float.
Proof.
  exists {| gamma := 0.19569512139720438; beta := 0;
            momentum_mevc := 0 |}%float.
  split; [vm_compute; reflexivity | split; [vm_compute; reflexivity |]].
  apply (proj1 beta_guard float Binary64.arith 0.0001%float);
    vm_compute; reflexivity.
Defined.

(** ** Transverse expansion *)

Section Expansion.

Local Open Scope R_scope.

Lemma Int_part_IZR (n : Z) : Int_part (IZR n) = n.
Proof. symmetry. apply Int_part_spec. lra. Qed.

Lemma frac_part_IZR (n : Z) : frac_part (IZR n) = 0.
Proof. unfold frac_part. rewrite Int_part_IZR. lra. Qed.

(** [x ** 2.0] and [x ** 3.0] are the products for every real base. *)
Lemma exact_pow_2 (x : R) : Exact.pow x 2 = Ok (x * x).
Proof.
  unfold Exact.pow. destruct (Rlt_dec 0 x) as [Hx | Hx].
  - rewrite Rpower_2 by exact Hx. reflexivity.
  - destruct (Req_dec_T x 0) as [-> | Hx0].
    + destruct (Rlt_dec 0 2); [| lra]. f_equal. lra.
    + rewrite frac_part_IZR, Int_part_IZR.
      destruct (Req_dec_T 0 0); [| lra]. simpl Z.even. cbv iota.
      rewrite Rpower_2 by lra. f_equal. lra.
Qed.

Lemma exact_pow_3 (x : R) : Exact.pow x 3 = Ok (x * x * x).
Proof.
  unfold Exact.pow. destruct (Rlt_dec 0 x) as [Hx | Hx].
  - rewrite Rpower_3 by exact Hx. reflexivity.
  - destruct (Req_dec_T x 0) as [-> | Hx0].
    + destruct (Rlt_dec 0 3); [| lra]. f_equal. lra.
    + rewrite frac_part_IZR, Int_part_IZR.
      destruct (Req_dec_T 0 0); [| lra]. simpl Z.even. cbv iota.
      rewrite Rpower_3 by lra. f_equal. lra.
Qed.

Lemma constants_pos :
  0 < Exact.lit 1.602176634e-19 /\ 0 < Exact.lit 9.10938356e-31 /\
  0 < Exact.lit 8.854187817e-12 /\ 0 < Exact.lit 299792458.0.
Proof. repeat split; apply exact_lit_pos; reflexivity. Qed.

(** The outcome of [simulate_transverse_expansion] on real arguments: a
    [ZeroDivisionError] for [gamma = 0] or a zero initial radius, and
    otherwise the radius at each drift distance. *)
Lemma simulate_transverse_expansion_exact (r0 q g : R) (zs : list R) :
  simulate_transverse_expansion r0 q g zs =
  if Req_dec_T g 0 then Raise ZeroDivisionError
  else if Req_dec_T r0 0 then Raise ZeroDivisionError
  else Ok (map (radius_at r0 q g) zs).
Proof.
  destruct constants_pos as (He & Hm & Heps & Hc).
  unfold simulate_transverse_expansion, C_LIGHT, E_CHARGE, EPSILON_0, E_MASS_KG.
  cbn [pow mul add sqrt pi lit Exact.arith].
  rewrite lit_3, lit_2, lit_2_0, lit_4_0, lit_1_0, exact_pow_3. simpl bind.
  rewrite exact_truediv.
  set (c := Exact.lit 299792458.0) in *.
  set (den := 4 * PI * Exact.lit 8.854187817e-12 * Exact.lit 9.10938356e-31
              * (c * g * (c * g) * (c * g))).
  pose proof PI_RGT_0 as Hpi.
  assert (Hk : 0 < 4 * PI * Exact.lit 8.854187817e-12
                   * Exact.lit 9.10938356e-31).
  { apply Rmult_lt_0_compat; [| exact Hm].
    apply Rmult_lt_0_compat; [| exact Heps].
    apply Rmult_lt_0_compat; lra. }
  destruct (Req_dec_T g 0) as [Hg | Hg].
  - destruct (Req_dec_T den 0) as [_ | Hd]; [reflexivity |].
    exfalso. apply Hd. unfold den. rewrite Hg. ring.
  - assert (Hcg : c * g <> 0) by (apply Rmult_integral_contrapositive; lra).
    assert (Hcg3 : c * g * (c * g) * (c * g) <> 0).
    { apply Rmult_integral_contrapositive. split; [| exact Hcg].
      apply Rmult_integral_contrapositive. split; exact Hcg. }
    destruct (Req_dec_T den 0) as [Hd | Hd].
    { exfalso. unfold den in Hd. apply Rmult_integral in Hd.
      destruct Hd; [lra | contradiction]. }
    simpl bind. rewrite exact_pow_2. simpl bind. rewrite exact_truediv.
    destruct (Req_dec_T r0 0) as [Hr | Hr].
    + destruct (Req_dec_T (r0 * r0) 0) as [_ | Hrr]; [reflexivity |].
      exfalso. apply Hrr. rewrite Hr. ring.
    + destruct (Req_dec_T (r0 * r0) 0) as [Hrr | Hrr].
      { apply Rmult_integral in Hrr. tauto. }
      simpl bind. reflexivity.
Qed.

(** The radius does not decrease along non-negative drift distances. *)
Lemma radius_at_monotone (r0 q g z1 z2 : R) :
  0 <= r0 -> 0 <= z1 <= z2 -> radius_at r0 q g z1 <= radius_at r0 q g z2.
Proof.
  intros Hr [Hz1 Hz12]. unfold radius_at.
  set (k := growth_rate r0 q g).
  apply Rmult_le_compat_l; [exact Hr |].
  apply sqrt_le_1_alt.
  assert (Hsq : k * z1 * (k * z1) <= k * z2 * (k * z2)).
  { replace (k * z1 * (k * z1)) with (k * k * (z1 * z1)) by ring.
    replace (k * z2 * (k * z2)) with (k * k * (z2 * z2)) by ring.
    apply Rmult_le_compat_l; [apply Rle_0_sqr | nra]. }
  lra.
Qed.

Lemma radii_sorted (r0 q g : R) (zs : list R) :
  0 <= r0 -> Forall (Rle 0) zs -> Sorted Rlt zs ->
  Sorted Rle (map (radius_at r0 q g) zs).
Proof.
  intros Hr Hz Hs. induction Hs as [| z zs Hs IH Hhd]; simpl.
  - constructor.
  - inversion Hz as [| ? ? Hz0 Hzs]; subst. constructor.
    + apply IH. exact Hzs.
    + destruct Hhd as [| z' zs' Hlt]; simpl; constructor.
      apply radius_at_monotone; [exact Hr | lra].
Qed.

(** C7 (as amended).  In exact arithmetic, for a positive initial radius, a
    non-zero [gamma], any charge, and a strictly increasing sequence of
    non-negative drift distances, [simulate_transverse_expansion] returns
    one radius per distance, in non-decreasing order. *)
Theorem expansion_monotone_exact (r0 q g : R) (zs : list R) :
  0 < r0 -> g <> 0 -> Forall (Rle 0) zs -> Sorted Rlt zs ->
  exists rs, simulate_transverse_expansion r0 q g zs = Ok rs /\
             length rs = length zs /\ Sorted Rle rs.
Proof.
  intros Hr Hg Hz Hs. exists (map (radius_at r0 q g) zs).
  rewrite simulate_transverse_expansion_exact.
  destruct (Req_dec_T g 0); [contradiction |].
  destruct (Req_dec_T r0 0); [lra |].
  split; [reflexivity | split].
  - apply length_map.
  - apply radii_sorted; [lra | exact Hz | exact Hs].
Qed.

Lemma expansion_monotone_exact_witness :
  exists rs, simulate_transverse_expansion (1 / 1000) (1 / 10) 20 [0; 1; 2]
             = Ok rs /\
             length rs = length [0; 1; 2] /\ Sorted Rle rs.
Proof.
  apply expansion_monotone_exact.
  - lra.
  - lra.
  - repeat constructor; lra.
  - repeat constructor; lra.
Defined.

End Expansion.

(** ** Transverse expansion: where monotonicity stops, and the example *)

Section ExpansionClaims.

Local Open Scope R_scope.

(** A literal with a negative power of ten, as a fraction. *)
Lemma exact_lit_ratio (l : Lit.t) (m d : Z) :
  Lit.mantissa l = m -> (0 <=? Lit.exponent l)%Z = false ->
  (10 ^ (- Lit.exponent l))%Z = d -> Exact.lit l = IZR m / IZR d.
Proof.
  intros Hm He Hd. unfold Exact.lit. rewrite Hm, He, Hd. reflexivity.
Qed.

(** No growth at the origin. *)
Lemma radius_at_0 (r0 q g : R) : radius_at r0 q g 0 = r0.
Proof.
  unfold radius_at.
  replace (1 + growth_rate r0 q g * 0 * (growth_rate r0 q g * 0)) with 1
    by ring.
  rewrite sqrt_1. ring.
Qed.

Lemma growth_rate_unit_pos : 0 < growth_rate 1 1 1.
Proof.
  destruct constants_pos as (He & Hm & Heps & Hc).
  pose proof PI_RGT_0 as Hpi. unfold growth_rate.
  set (c := Exact.lit 299792458.0) in *.
  assert (Hc1 : 0 < c * 1) by lra.
  assert (Hc3 : 0 < c * 1 * (c * 1) * (c * 1)).
  { apply Rmult_lt_0_compat; [| exact Hc1].
    apply Rmult_lt_0_compat; exact Hc1. }
  assert (Hk : 0 < 4 * PI * Exact.lit 8.854187817e-12
                   * Exact.lit 9.10938356e-31).
  { apply Rmult_lt_0_compat; [| exact Hm].
    apply Rmult_lt_0_compat; [| exact Heps].
    apply Rmult_lt_0_compat; lra. }
  apply Rdiv_lt_0_compat; [| lra].
  apply Rmult_lt_0_compat; [| lra].
  apply Rdiv_lt_0_compat; [lra |].
  apply Rmult_lt_0_compat; assumption.
Qed.

(** C7 fails as stated.  Along the increasing distances [-1, 0] the radius
    decreases, in exact arithmetic and in binary64; a negative initial
    radius makes the radii decrease along [0, 1]; a zero initial radius,
    or [gamma = 0], raises [ZeroDivisionError] and returns no radii. *)
Lemma expansion_not_monotone :
  (Sorted Rlt [-1; 0] /\
   exists r1 r2,
     simulate_transverse_expansion 1 1 1 [-1; 0] = Ok [r1; r2] /\ r2 < r1) /\
  (simulate_transverse_expansion 1e-10%float 1e-3%float 20%float
     [-1; 0]%float =
     Ok [0.14666980366596744; 1e-10]%float /\
   PrimFloat.ltb 1e-10 0.14666980366596744 = true) /\
  (simulate_transverse_expansion (-1e-3)%float 1e-3%float 20%float
     [0; 1]%float =
     Ok [-0.001; -0.0010000000001075602]%float /\
   PrimFloat.ltb (-0.0010000000001075602) (-0.001) = true) /\
  simulate_transverse_expansion 0%float 1e-3%float 20%float [0; 1]%float =
    Raise ZeroDivisionError /\
  simulate_transverse_expansion 1e-3%float 1e-3%float 0%float [0; 1]%float =
    Raise ZeroDivisionError.
Proof.
  split; [split |].
  - repeat constructor. lra.
  - exists (radius_at 1 1 1 (-1)), (radius_at 1 1 1 0). split.
    + rewrite simulate_transverse_expansion_exact.
      destruct (Req_dec_T 1 0); [lra | reflexivity].
    + rewrite radius_at_0. unfold radius_at.
      pose proof growth_rate_unit_pos as Hk.
      set (k := growth_rate 1 1 1) in *.
      rewrite Rmult_1_l.
      apply Rle_lt_trans with (R_sqrt.sqrt 1); [rewrite sqrt_1; lra |].
      apply sqrt_lt_1_alt. nra.
  - repeat match goal with |- _ /\ _ => split end; vm_compute; reflexivity.
Qed.

(** The sample points of the driver start at 0. *)
Lemma z_points_exact_head : exists zs : list R, z_points = 0 :: zs.
Proof.
  unfold z_points, linspace.
  cbn [Nat.sub Nat.ltb Nat.leb seq map].
  destruct (_ == _)%A; cbn [map removelast app];
    cbn [of_int add mul div sub lit Exact.arith Z.of_nat];
    eexists; f_equal;
    rewrite lit_0; unfold Rdiv; rewrite ?Rmult_0_l, Rplus_0_l; reflexivity.
Qed.

Lemma lit_100e_12 : Exact.lit 100e-12 = 100 / 1000000000000.
Proof. apply exact_lit_ratio; reflexivity. Qed.

Lemma lit_1e_3 : Exact.lit 1e-3 = 1 / 1000.
Proof. apply exact_lit_ratio; reflexivity. Qed.

Lemma CHARGE_exact : CHARGE = 100 / 1000000000000.
Proof. unfold CHARGE. cbn [lit Exact.arith]. apply lit_100e_12. Qed.

Lemma R_INITIAL_exact : R_INITIAL = 1 / 1000.
Proof. unfold R_INITIAL. cbn [lit Exact.arith]. apply lit_1e_3. Qed.

Lemma GAMMA_exact : GAMMA = 20.
Proof. unfold GAMMA. cbn [lit Exact.arith]. apply lit_20_0. Qed.

Lemma example_table_exact :
  example_table =
  Ok (table_rows z_points
        (map (radius_at CHARGE R_INITIAL GAMMA) z_points)) /\
  spec_example_table =
  Ok (table_rows z_points
        (map (radius_at R_INITIAL CHARGE GAMMA) z_points)).
Proof.
  unfold example_table, r_expansion, spec_example_table.
  rewrite !simulate_transverse_expansion_exact.
  rewrite GAMMA_exact, CHARGE_exact, R_INITIAL_exact.
  destruct (Req_dec_T 20 0); [lra |].
  destruct (Req_dec_T (100 / 1000000000000) 0); [lra |].
  destruct (Req_dec_T (1 / 1000) 0); [lra |].
  split; reflexivity.
Qed.

End ExpansionClaims.

(** C1.  The driver calls
    [simulate_transverse_expansion(CHARGE, R_INITIAL, GAMMA, z_points)]: the
    charge in the place of the initial radius and the radius in the place of
    the charge.  The table it prints is therefore not the model at an initial
    radius of 1 mm and a charge of 100 pC: in exact arithmetic the two tables
    differ, and in binary64 the driver prints the radii 0.000, 14.667, ...,
    146.670 mm where the model of the specification gives 1.000 mm in every
    row. *)
Theorem example_table_swaps_arguments :
  (forall (F : Type) (arith : Arith F),
     @r_expansion F arith =
     simulate_transverse_expansion
       (lit 100e-12) (lit 1e-3) (lit 20.0) z_points) /\
  @example_table R Exact.arith <> @spec_example_table R Exact.arith /\
  printed_table example_table =
    Ok [(Some 0, Some 0); (Some 10, Some 14667); (Some 20, Some 29334);
        (Some 30, Some 44001); (Some 40, Some 58668); (Some 50, Some 73335);
        (Some 60, Some 88002); (Some 70, Some 102669);
        (Some 80, Some 117336); (Some 90, Some 132003);
        (Some 100, Some 146670)]%Z /\
  printed_table spec_example_table =
    Ok [(Some 0, Some 1000); (Some 10, Some 1000); (Some 20, Some 1000);
        (Some 30, Some 1000); (Some 40, Some 1000); (Some 50, Some 1000);
        (Some 60, Some 1000); (Some 70, Some 1000); (Some 80, Some 1000);
        (Some 90, Some 1000); (Some 100, Some 1000)]%Z.
Proof.
  split; [intros F arith; reflexivity | split; [| split]].
  - destruct example_table_exact as [-> ->].
    destruct z_points_exact_head as [zs ->].
    cbn [map combine table_rows]. rewrite !radius_at_0.
    intros H. injection H as H _. revert H.
    rewrite lit_100e_12, lit_1e_3, lit_1000_0. lra.
  - vm_compute. reflexivity.
  - vm_compute. reflexivity.
Qed.

(** * Further properties of the code *)

(** ** Transverse expansion: errors, lower bound, symmetry *)

Section ExpansionMore.

Local Open Scope R_scope.

Lemma growth_rate_zero_charge (r0 g : R) : growth_rate r0 0 g = 0.
Proof. unfold growth_rate, Rdiv. ring. Qed.

Lemma growth_rate_opp_charge (r0 q g : R) :
  growth_rate r0 (- q) g = - growth_rate r0 q g.
Proof. unfold growth_rate, Rdiv. ring. Qed.

Lemma radius_at_ge (r0 q g z : R) : 0 <= r0 -> r0 <= radius_at r0 q g z.
Proof.
  intros Hr. unfold radius_at. set (k := growth_rate r0 q g).
  assert (H1 : 1 <= R_sqrt.sqrt (1 + k * z * (k * z))).
  { rewrite <- sqrt_1 at 1. apply sqrt_le_1_alt.
    pose proof (Rle_0_sqr (k * z)) as Hs. unfold Rsqr in Hs. lra. }
  nra.
Qed.

Lemma radius_at_even (r0 q g z : R) :
  radius_at r0 q g (- z) = radius_at r0 q g z.
Proof.
  unfold radius_at. do 2 f_equal. ring.
Qed.

Lemma radius_at_opp_charge (r0 q g z : R) :
  radius_at r0 (- q) g z = radius_at r0 q g z.
Proof.
  unfold radius_at. rewrite growth_rate_opp_charge. do 2 f_equal. ring.
Qed.

(** X1.  [simulate_transverse_expansion] raises [ZeroDivisionError] exactly
    when [gamma] or the initial radius is zero; otherwise it returns one
    radius per drift distance. *)
Theorem expansion_error_exact (r0 q g : R) (zs : list R) :
  (simulate_transverse_expansion r0 q g zs = Raise ZeroDivisionError
   <-> g = 0 \/ r0 = 0) /\
  ((exists rs, simulate_transverse_expansion r0 q g zs = Ok rs /\
               length rs = length zs)
   <-> g <> 0 /\ r0 <> 0).
Proof.
  rewrite simulate_transverse_expansion_exact.
  destruct (Req_dec_T g 0) as [Hg | Hg];
    [| destruct (Req_dec_T r0 0) as [Hr | Hr]].
  - split; split.
    + intros _. left. exact Hg.
    + reflexivity.
    + intros (rs & E & _). discriminate.
    + intros [H _]. contradiction.
  - split; split.
    + intros _. right. exact Hr.
    + reflexivity.
    + intros (rs & E & _). discriminate.
    + intros [_ H]. contradiction.
  - split; split.
    + discriminate.
    + intros [H | H]; contradiction.
    + intros _. split; assumption.
    + intros _. eexists. split; [reflexivity | apply length_map].
Qed.

(** X2.  For a positive initial radius and a non-zero [gamma], no returned
    radius is below the initial radius; at zero drift, and for a bunch
    without charge at every drift distance, the radius is exactly the initial
    radius. *)
Theorem expansion_at_least_initial (r0 q g : R) (zs : list R) :
  0 < r0 -> g <> 0 ->
  (exists rs, simulate_transverse_expansion r0 q g zs = Ok rs /\
              Forall (Rle r0) rs) /\
  simulate_transverse_expansion r0 q g [0] = Ok [r0] /\
  simulate_transverse_expansion r0 0 g zs = Ok (map (fun _ => r0) zs).
Proof.
  intros Hr Hg. rewrite !simulate_transverse_expansion_exact.
  destruct (Req_dec_T g 0); [contradiction |].
  destruct (Req_dec_T r0 0); [lra |].
  split; [| split].
  - eexists. split; [reflexivity |].
    apply Forall_forall. intros r Hin. apply in_map_iff in Hin.
    destruct Hin as (z & <- & _). apply radius_at_ge. lra.
  - simpl. rewrite radius_at_0. reflexivity.
  - f_equal. apply map_ext. intros z. unfold radius_at.
    rewrite growth_rate_zero_charge.
    replace (1 + 0 * z * (0 * z)) with 1 by ring.
    rewrite sqrt_1. ring.
Qed.

Lemma expansion_at_least_initial_witness :
  (exists rs,
     simulate_transverse_expansion (1 / 1000) (1 / 10) 20 [0; 1; 2] = Ok rs /\
     Forall (Rle (1 / 1000)) rs) /\
  simulate_transverse_expansion (1 / 1000) (1 / 10) 20 [0] = Ok [1 / 1000] /\
  simulate_transverse_expansion (1 / 1000) 0 20 [0; 1; 2] =
    Ok (map (fun _ => 1 / 1000) [0; 1; 2]).
Proof.
  apply expansion_at_least_initial; lra.
Defined.

(** X3.  The model depends on the drift distance and on the charge only
    through their squares: reversing the sign of every distance, or of the
    charge, changes nothing in the outcome. *)
Theorem expansion_even (r0 q g : R) (zs : list R) :
  simulate_transverse_expansion r0 q g (map Ropp zs) =
    simulate_transverse_expansion r0 q g zs /\
  simulate_transverse_expansion r0 (- q) g zs =
    simulate_transverse_expansion r0 q g zs.
Proof.
  rewrite !simulate_transverse_expansion_exact.
  destruct (Req_dec_T g 0); [split; reflexivity |].
  destruct (Req_dec_T r0 0); [split; reflexivity |].
  split; f_equal.
  - rewrite map_map. apply map_ext. intros z. apply radius_at_even.
  - apply map_ext. intros z. apply radius_at_opp_charge.
Qed.

End ExpansionMore.

(** ** Macaulay duration: single payment, shifted times, total loss *)

Section MacDMore.

Local Open Scope R_scope.

(** The present value of one cash flow under a positive base. *)
Lemma present_value_exact (ytm cf t : R) :
  0 < 1 + ytm ->
  present_value ytm (cf, t) = Ok (cf / Rpower (1 + ytm) t).
Proof.
  intros Hy. unfold present_value. cbn [pow add lit Exact.arith].
  rewrite lit_1, exact_pow_pos by exact Hy. simpl bind.
  rewrite exact_truediv. pose proof (Rpower_pos (1 + ytm) t) as Hd.
  destruct (Req_dec_T (Rpower (1 + ytm) t) 0); [lra | reflexivity].
Qed.

(** X4.  A single cash flow (a zero-coupon bond) has its payment time as
    duration, whatever its non-zero amount and the yield above -100%. *)
Theorem macaulay_duration_single_exact (c t ytm : R) :
  c <> 0 -> 0 < 1 + ytm -> macaulay_duration [c] [t] ytm = Ok t.
Proof.
  intros Hc Hy. rewrite macaulay_duration_unfold by reflexivity.
  cbn [combine map_result]. rewrite present_value_exact by exact Hy.
  simpl bind. pose proof (Rpower_pos (1 + ytm) t) as Hd.
  set (P := Rpower (1 + ytm) t) in *.
  assert (Hpv : c / P <> 0).
  { unfold Rdiv. apply Rmult_integral_contrapositive. split; [exact Hc |].
    apply Rinv_neq_0_compat. lra. }
  simpl. destruct (Req_dec_T (c / P + 0) 0) as [E | _].
  - lra.
  - f_equal. field. split; lra.
Qed.

Lemma macaulay_duration_single_exact_witness :
  macaulay_duration [1000] [5] (1 / 20) = Ok 5.
Proof.
  apply macaulay_duration_single_exact; lra.
Defined.

Lemma present_values_shifted (ytm s : R) (cfs ts : list R) :
  0 < 1 + ytm ->
  map_result (present_value ytm) (combine cfs (map (Rplus s) ts)) =
  (pvs <- map_result (present_value ytm) (combine cfs ts) ;;
   Ok (map (fun pv => pv / Rpower (1 + ytm) s) pvs)).
Proof.
  intros Hy. revert ts.
  induction cfs as [| cf cfs IH]; intros [| t ts]; try reflexivity.
  cbn [map combine map_result].
  rewrite !present_value_exact, IH by exact Hy. simpl bind.
  destruct (map_result (present_value ytm) (combine cfs ts)) as [pvs | e | w];
    simpl; try reflexivity.
  do 2 f_equal. rewrite Rpower_plus.
  pose proof (Rpower_pos (1 + ytm) s). pose proof (Rpower_pos (1 + ytm) t).
  field. split; lra.
Qed.

Lemma Rsum_div (K : R) (xs : list R) :
  Rsum (map (fun x => x / K) xs) = Rsum xs / K.
Proof.
  induction xs as [| x xs IH]; simpl; [unfold Rdiv; ring |].
  rewrite IH. unfold Rdiv. ring.
Qed.

Lemma weighted_shifted (s K : R) (ts pvs : list R) :
  length pvs = length ts ->
  Rsum (map (fun p => fst p * snd p)
            (combine (map (Rplus s) ts) (map (fun pv => pv / K) pvs))) =
  (s * Rsum pvs
   + Rsum (map (fun p => fst p * snd p) (combine ts pvs))) / K.
Proof.
  revert pvs. induction ts as [| t ts IH]; intros [| pv pvs] Hlen;
    try discriminate.
  - simpl. unfold Rdiv. ring.
  - injection Hlen as Hlen. cbn [map combine Rsum fst snd].
    rewrite IH by exact Hlen. unfold Rdiv. ring.
Qed.

(** X5.  Postponing every payment by [s] years postpones the duration by
    [s]: for positive cash flows and a yield above -100%, the duration of the
    shifted schedule is [s] plus the duration of the original one. *)
Theorem macaulay_duration_shift_exact (cash_flows times : list R) (ytm s : R) :
  length cash_flows = length times -> cash_flows <> [] ->
  Forall (Rlt 0) cash_flows -> 0 < 1 + ytm ->
  exists D,
    macaulay_duration cash_flows times ytm = Ok D /\
    macaulay_duration cash_flows (map (Rplus s) times) ytm = Ok (s + D).
Proof.
  intros Hlen Hne Hcf Hy.
  destruct (@present_values_positive ytm cash_flows times Hy Hcf Hlen)
    as (pvs & E & Hl & Hp).
  assert (HV : 0 < Rsum pvs).
  { apply Rsum_pos; [| exact Hp].
    destruct pvs; [| discriminate].
    destruct cash_flows; [congruence |].
    rewrite <- Hlen in Hl. discriminate. }
  pose proof (Rpower_pos (1 + ytm) s) as HK.
  set (K := Rpower (1 + ytm) s) in *.
  rewrite !macaulay_duration_unfold
    by (rewrite ?length_map; exact Hlen).
  rewrite present_values_shifted, E by exact Hy. simpl bind.
  fold K. rewrite weighted_shifted, Rsum_div by exact Hl.
  destruct (Req_dec_T (Rsum pvs) 0); [lra |].
  destruct (Req_dec_T (Rsum pvs / K) 0) as [E0 | _].
  { exfalso. assert (0 < Rsum pvs / K) by (apply Rdiv_lt_0_compat; lra).
    lra. }
  eexists. split; [reflexivity |]. f_equal. field. split; lra.
Qed.

Lemma macaulay_duration_shift_exact_witness :
  exists D,
    macaulay_duration [80; 80; 1080] [1; 2; 3] (1 / 10) = Ok D /\
    macaulay_duration [80; 80; 1080] (map (Rplus 2) [1; 2; 3]) (1 / 10) =
      Ok (2 + D).
Proof.
  apply macaulay_duration_shift_exact.
  - reflexivity.
  - discriminate.
  - repeat constructor; lra.
  - lra.
Defined.

(** At a yield of -100% the discount base is 0: a payment at time 0 is kept,
    any other raises. *)
Lemma present_value_total_loss (cf t : R) :
  present_value (-1) (cf, t) =
  if Req_dec_T t 0 then Ok (cf / 1) else Raise ZeroDivisionError.
Proof.
  unfold present_value. cbn [pow add lit Exact.arith]. rewrite lit_1.
  replace (1 + -1) with 0 by ring. unfold Exact.pow.
  destruct (Rlt_dec 0 0) as [H | _]; [lra |].
  destruct (Req_dec_T 0 0) as [_ | H]; [| lra].
  destruct (Rlt_dec 0 t) as [Ht | Ht].
  - simpl bind. rewrite exact_truediv.
    destruct (Req_dec_T 0 0); [| lra].
    destruct (Req_dec_T t 0); [lra | reflexivity].
  - destruct (Req_dec_T t 0) as [Ht0 | Ht0].
    + simpl bind. rewrite exact_truediv.
      destruct (Req_dec_T 1 0); [lra | reflexivity].
    + reflexivity.
Qed.

Lemma present_values_total_loss (ps : list (R * R)) :
  Exists (fun p => snd p <> 0) ps ->
  map_result (present_value (-1)) ps = Raise ZeroDivisionError.
Proof.
  induction ps as [| [cf t] ps IH]; intros Hex.
  - inversion Hex.
  - cbn [map_result]. rewrite present_value_total_loss.
    destruct (Req_dec_T t 0) as [Ht | Ht]; [| reflexivity].
    simpl bind. rewrite IH; [reflexivity |].
    inversion Hex as [? ? Hh | ? ? Htl]; subst; [| exact Htl].
    simpl in Hh. contradiction.
Qed.

Lemma Exists_combine_snd (P : R -> Prop) (xs ys : list R) :
  length xs = length ys -> Exists P ys ->
  Exists (fun p => P (snd p)) (combine xs ys).
Proof.
  revert ys. induction xs as [| x xs IH]; intros [| y ys] Hlen Hex;
    try discriminate.
  - inversion Hex.
  - injection Hlen as Hlen. cbn [combine].
    inversion Hex as [? ? Hh | ? ? Htl]; subst.
    + left. exact Hh.
    + right. apply IH; assumption.
Qed.

(** X6.  Called with lists of Python floats, at a yield of exactly -100%
    ([ytm = -1]) the function raises [ZeroDivisionError] as soon as one
    payment time is not 0: the discount factor [(1 + ytm) ** t] is 0 or
    undefined. *)
Theorem macaulay_duration_total_loss_exact (cash_flows times : list R) :
  length cash_flows = length times -> Exists (fun t => t <> 0) times ->
  macaulay_duration cash_flows times (-1) = Raise ZeroDivisionError.
Proof.
  intros Hlen Hex. rewrite macaulay_duration_unfold by exact Hlen.
  rewrite present_values_total_loss; [reflexivity |].
  apply (@Exists_combine_snd (fun t => t <> 0)); assumption.
Qed.

Lemma macaulay_duration_total_loss_exact_witness :
  macaulay_duration [80; 80; 1080] [1; 2; 3] (-1) = Raise ZeroDivisionError.
Proof.
  apply macaulay_duration_total_loss_exact.
  - reflexivity.
  - left. lra.
Defined.

Lemma present_values_zero_flows (ytm : R) (ts : list R) :
  0 < 1 + ytm ->
  map_result (present_value ytm) (combine (map (fun _ => 0) ts) ts) =
  Ok (map (fun _ => 0) ts).
Proof.
  intros Hy. induction ts as [| t ts IH]; [reflexivity |].
  cbn [map combine map_result]. rewrite present_value_exact, IH by exact Hy.
  simpl bind. do 2 f_equal. unfold Rdiv. ring.
Qed.

Lemma Rsum_all_zero (ts : list R) : Rsum (map (fun _ => 0) ts) = 0.
Proof. induction ts as [| t ts IH]; simpl; lra. Qed.

(** X7.  When the present values sum to zero the function returns 0.0
    instead of dividing: this is the outcome for cash flows that are all
    zero, and for the empty schedule. *)
Theorem macaulay_duration_zero_flows_exact (times : list R) (ytm : R) :
  0 < 1 + ytm ->
  macaulay_duration (map (fun _ => 0) times) times ytm = Ok 0.
Proof.
  intros Hy. rewrite macaulay_duration_unfold by apply length_map.
  rewrite present_values_zero_flows by exact Hy. simpl bind.
  rewrite Rsum_all_zero. destruct (Req_dec_T 0 0); [reflexivity | lra].
Qed.

Lemma macaulay_duration_zero_flows_exact_witness :
  macaulay_duration (map (fun _ => 0) [1; 2; 3]) [1; 2; 3] (1 / 10) = Ok 0 /\
  macaulay_duration (map (fun _ => 0) (@nil R)) [] (1 / 10) = Ok 0.
Proof.
  split; apply macaulay_duration_zero_flows_exact; lra.
Defined.

End MacDMore.

(** ** Herfindahl-Hirschman Index: invariances and the extreme markets *)

Section HHIMore.

Local Open Scope R_scope.

Lemma Rsum_squares_scal (a : R) (xs : list R) :
  Rsum (map (fun x => x * x) (map (Rmult a) xs)) =
  a * a * Rsum (map (fun x => x * x) xs).
Proof. induction xs as [| x xs IH]; simpl; [ring | rewrite IH; ring]. Qed.

Lemma exact_zero_total (xs : list R) :
  Rsum xs = 0 -> calculate_hhi (PyList xs) = Ok 0.
Proof.
  intros HT. rewrite calculate_hhi_zero_total.
  - cbn [lit Exact.arith]. rewrite lit_0_0. reflexivity.
  - cbn [eqb lit Exact.arith]. apply exact_eqb_true.
    rewrite np_sum_exact, lit_0. exact HT.
Qed.

(** X8.  The index is the same for raw sizes and for any rescaling of them
    (percentages, another currency): multiplying every entry by a non-zero
    constant leaves the outcome unchanged. *)
Theorem calculate_hhi_scale_exact (a : R) (xs : list R) :
  a <> 0 ->
  calculate_hhi (PyList (map (Rmult a) xs)) = calculate_hhi (PyList xs).
Proof.
  intros Ha. destruct xs as [| x0 xs0]; [reflexivity |].
  set (xs := x0 :: xs0).
  destruct (Req_dec_T (Rsum xs) 0) as [HT | HT].
  - rewrite !exact_zero_total; [reflexivity | exact HT |].
    rewrite Rsum_scal, HT. ring.
  - rewrite !calculate_hhi_exact; try discriminate; try exact HT.
    + f_equal. rewrite Rsum_squares_scal, Rsum_scal. field. split; assumption.
    + rewrite Rsum_scal. apply Rmult_integral_contrapositive. split; assumption.
Qed.

Lemma calculate_hhi_scale_exact_witness :
  calculate_hhi (PyList (map (Rmult (1 / 100)) [40; 30; 15; 10; 5])) =
  calculate_hhi (PyList [40; 30; 15; 10; 5]).
Proof.
  apply calculate_hhi_scale_exact. lra.
Defined.

Lemma Rsum_perm (xs ys : list R) : Permutation xs ys -> Rsum xs = Rsum ys.
Proof.
  induction 1 as [| x l l' _ IH | x y l | l l' l'' _ IH1 _ IH2]; simpl;
    try lra.
Qed.

(** X9.  The order in which the firms are listed does not matter. *)
Theorem calculate_hhi_perm_exact (xs ys : list R) :
  Permutation xs ys ->
  calculate_hhi (PyList xs) = calculate_hhi (PyList ys).
Proof.
  intros Hp.
  pose proof (Rsum_perm Hp) as HT.
  pose proof (Rsum_perm (Permutation_map (fun x => x * x) Hp)) as HQ.
  destruct xs as [| x0 xs0].
  { apply Permutation_nil in Hp. subst. reflexivity. }
  destruct ys as [| y0 ys0].
  { apply Permutation_sym, Permutation_nil in Hp. discriminate. }
  destruct (Req_dec_T (Rsum (x0 :: xs0)) 0) as [H0 | H0].
  - rewrite !exact_zero_total; [reflexivity | | exact H0].
    rewrite <- HT. exact H0.
  - rewrite !calculate_hhi_exact; try discriminate; try exact H0.
    + rewrite HT, HQ. reflexivity.
    + rewrite <- HT. exact H0.
Qed.

Lemma calculate_hhi_perm_exact_witness :
  calculate_hhi (PyList [5; 40; 10; 30; 15]) =
  calculate_hhi (PyList [40; 30; 15; 10; 5]).
Proof.
  apply calculate_hhi_perm_exact.
  apply Permutation_cons_app with (l1 := [40; 30; 15; 10]) (l2 := []).
  simpl. constructor.
  apply Permutation_cons_app with (l1 := [30; 15]) (l2 := []).
  simpl. apply Permutation_refl.
Defined.

End HHIMore.

Section HHIExtremes.

Local Open Scope R_scope.

Lemma Rsum_squares_zero (f : R -> R) (xs : list R) :
  Rsum (map (fun x => f x * f x) xs) = 0 -> forall x, In x xs -> f x = 0.
Proof.
  induction xs as [| y xs IH]; intros Hs x Hin; [contradiction |].
  simpl in Hs.
  pose proof (Rsum_squares_nonneg f xs) as Hrest.
  pose proof (Rle_0_sqr (f y)) as Hy. unfold Rsqr in Hy.
  destruct Hin as [<- | Hin].
  - apply Rsqr_0_uniq. unfold Rsqr. lra.
  - apply IH; [lra | exact Hin].
Qed.

(** X10.  Whatever the signs of the entries, as long as their total is not
    zero the index is at least [10000/n], and it equals [10000/n] exactly
    when all entries are equal. *)
Theorem calculate_hhi_minimum_exact (xs : list R) :
  Rsum xs <> 0 ->
  exists H, calculate_hhi (PyList xs) = Ok H /\
    10000 / INR (length xs) <= H /\
    (H = 10000 / INR (length xs) <->
     forall x y, In x xs -> In y xs -> x = y).
Proof.
  intros HT.
  assert (Hne : xs <> []) by (intros ->; apply HT; reflexivity).
  assert (Hn : 0 < INR (length xs)).
  { apply lt_0_INR. destruct xs; [congruence | simpl; lia]. }
  pose proof (Rsum_squares_ge xs) as Hlow.
  pose proof (Rsum_deviation (Rsum xs / INR (length xs)) xs) as Hdev.
  set (T := Rsum xs) in *. set (Q := Rsum (map (fun x => x * x) xs)) in *.
  set (n := INR (length xs)) in *.
  assert (HTT : 0 < T * T) by nra.
  assert (Hval : 10000 * Q / (T * T) = 10000 / n -> n * Q = T * T).
  { intros E. apply (f_equal (fun u => u * (n * (T * T)) / 10000)) in E.
    replace (10000 * Q / (T * T) * (n * (T * T)) / 10000) with (n * Q) in E
      by (field; lra).
    replace (10000 / n * (n * (T * T)) / 10000) with (T * T) in E
      by (field; lra).
    exact E. }
  exists (10000 * Q / (T * T)). split; [| split; [| split]].
  - apply calculate_hhi_exact; assumption.
  - apply Rmult_le_reg_r with (n * (T * T)); [nra |].
    replace (10000 / n * (n * (T * T))) with (10000 * (T * T)) by (field; lra).
    replace (10000 * Q / (T * T) * (n * (T * T))) with (10000 * (n * Q))
      by (field; lra).
    lra.
  - intros E. pose proof (Hval E) as HnQ.
    assert (Hz : Rsum (map (fun x => (x - T / n) * (x - T / n)) xs) = 0).
    { rewrite Hdev. fold Q.
      replace (n * (T / n * (T / n))) with (T * T / n) by (field; lra).
      replace (2 * (T / n) * T) with (2 * (T * T / n)) by (field; lra).
      rewrite <- HnQ. field. lra. }
    intros x y Hx Hy.
    pose proof (@Rsum_squares_zero (fun u => u - T / n) xs Hz x Hx) as Ex.
    pose proof (@Rsum_squares_zero (fun u => u - T / n) xs Hz y Hy) as Ey.
    cbv beta in Ex, Ey. lra.
  - intros Hall. destruct xs as [| c xs']; [congruence |].
    destruct (Rsum_constant (c := c) (c :: xs')) as [E1 E2].
    { intros x Hx. apply Hall; [exact Hx | left; reflexivity]. }
    fold T in E1. fold Q in E2. fold n in E1, E2.
    assert (Hc : c <> 0).
    { intros Hc. rewrite Hc in E1. apply HT. rewrite E1. ring. }
    rewrite E1, E2. field. split; lra.
Qed.

Lemma calculate_hhi_minimum_exact_witness :
  exists H, calculate_hhi (PyList [3; -1; 2]) = Ok H /\
    10000 / INR (length [3; -1; 2]) <= H /\
    (H = 10000 / INR (length [3; -1; 2]) <->
     forall x y : R, In x [3; -1; 2] -> In y [3; -1; 2] -> x = y).
Proof.
  apply calculate_hhi_minimum_exact. simpl. lra.
Defined.

Lemma nonneg_zero_sum (xs : list R) :
  Forall (Rle 0) xs -> Rsum xs = 0 -> xs = repeat 0 (length xs).
Proof.
  induction 1 as [| x xs Hx Hxs IH]; intros HS; [reflexivity |].
  simpl in HS. pose proof (Rsum_nonneg Hxs) as Hrest.
  assert (x = 0) by lra. assert (Rsum xs = 0) by lra.
  subst x. simpl. f_equal. apply IH. assumption.
Qed.

Lemma squares_fill_square (xs : list R) :
  Forall (Rle 0) xs -> 0 < Rsum xs ->
  Rsum (map (fun x => x * x) xs) = Rsum xs * Rsum xs ->
  exists (a b : nat) (x : R), 0 < x /\ xs = repeat 0 a ++ x :: repeat 0 b.
Proof.
  induction 1 as [| y xs Hy Hxs IH]; intros HT HQ; [simpl in HT; lra |].
  simpl in HT, HQ.
  pose proof (Rsum_nonneg Hxs) as HS.
  pose proof (Rsum_squares_le Hxs) as Hle.
  assert (HyS : y * Rsum xs = 0) by nra.
  apply Rmult_integral in HyS. destruct HyS as [Hy0 | HS0].
  - subst y. destruct IH as (a & b & x & Hx & E); [lra | nra |].
    exists (S a), b, x. split; [exact Hx |]. rewrite E. reflexivity.
  - exists 0%nat, (length xs), y. split; [lra |]. simpl. f_equal.
    apply nonneg_zero_sum; assumption.
Qed.

(** X11.  For non-negative sizes with a positive total the index is 10000
    exactly when one firm holds the whole market: one entry is positive and
    all the others are zero. *)
Theorem calculate_hhi_maximum_exact (xs : list R) :
  Forall (Rle 0) xs -> 0 < Rsum xs ->
  (calculate_hhi (PyList xs) = Ok 10000 <->
   exists (a b : nat) (x : R), 0 < x /\ xs = repeat 0 a ++ x :: repeat 0 b).
Proof.
  intros Hnn HT. split.
  - intros E.
    assert (Hne : xs <> []) by (intros ->; simpl in HT; lra).
    rewrite calculate_hhi_exact in E by (auto; lra).
    injection E as E. apply squares_fill_square; [exact Hnn | exact HT |].
    assert (HTT : 0 < Rsum xs * Rsum xs) by nra.
    apply (f_equal (fun u => u * (Rsum xs * Rsum xs) / 10000)) in E.
    replace (10000 * Rsum (map (fun x => x * x) xs) / (Rsum xs * Rsum xs)
             * (Rsum xs * Rsum xs) / 10000)
      with (Rsum (map (fun x => x * x) xs)) in E by (field; lra).
    rewrite E. field.
  - intros (a & b & x & Hx & ->). apply calculate_hhi_single_firm. exact Hx.
Qed.

Lemma calculate_hhi_maximum_exact_witness :
  calculate_hhi (PyList [0; 7; 0]) = Ok 10000 <->
  exists (a b : nat) (x : R), 0 < x /\ [0; 7; 0] = repeat 0 a ++ x :: repeat 0 b.
Proof.
  apply calculate_hhi_maximum_exact.
  - repeat constructor; lra.
  - simpl. lra.
Defined.

End HHIExtremes.

(** ** The concentration label of the HHI driver *)

Section Level.

Local Open Scope R_scope.

Lemma concentration_level_exact (H : R) :
  concentration_level H =
  if Rlt_dec H 1500 then "Unconcentrated"%string
  else if Rle_dec H 2500 then "Moderately Concentrated"%string
  else "Highly Concentrated"%string.
Proof.
  unfold concentration_level. cbn [less leb lit exact_ext Exact.arith].
  rewrite (@exact_lit_int 1500%lit eq_refl), (@exact_lit_int 2500%lit eq_refl).
  change (IZR (Lit.mantissa 1500)) with 1500.
  change (IZR (Lit.mantissa 2500)) with 2500.
  unfold exact_less, Exact.leb.
  destruct (Rlt_dec H 1500); [reflexivity |].
  destruct (Rle_dec H 2500); reflexivity.
Qed.

Lemma calculate_hhi_equal_firms (c : R) (n : nat) :
  0 < c -> (1 <= n)%nat ->
  calculate_hhi (PyList (repeat c n)) = Ok (10000 / INR n).
Proof.
  intros Hc Hn.
  destruct (Rsum_constant (c := c) (repeat c n)) as [E1 E2].
  { intros x Hx. apply repeat_spec in Hx. exact Hx. }
  rewrite repeat_length in E1, E2.
  assert (HN : 0 < INR n) by (apply lt_0_INR; lia).
  rewrite calculate_hhi_exact.
  - rewrite E1, E2. f_equal. field. split; lra.
  - destruct n; [lia | discriminate].
  - rewrite E1. apply Rmult_integral_contrapositive. split; lra.
Qed.

(** X12.  A market of [n] equal firms is labelled "Highly Concentrated" for
    up to 3 firms, "Moderately Concentrated" for 4 to 6 (at [n = 4] the index
    is exactly 2500, which the driver's [<=] keeps in the middle tier), and
    "Unconcentrated" from 7 firms on. *)
Theorem equal_firms_level (c : R) (n : nat) :
  0 < c -> (1 <= n)%nat ->
  exists H, calculate_hhi (PyList (repeat c n)) = Ok H /\
    concentration_level H =
      (if (n <=? 3)%nat then "Highly Concentrated"
       else if (n <=? 6)%nat then "Moderately Concentrated"
       else "Unconcentrated")%string.
Proof.
  intros Hc Hn. exists (10000 / INR n).
  split; [apply calculate_hhi_equal_firms; assumption |].
  rewrite concentration_level_exact.
  destruct (le_lt_dec n 6) as [Hsmall | Hbig].
  - assert (Hcases : (n = 1 \/ n = 2 \/ n = 3 \/ n = 4 \/ n = 5 \/ n = 6)%nat)
      by lia.
    destruct Hcases as [-> | [-> | [-> | [-> | [-> | ->]]]]];
      simpl INR; simpl Nat.leb; cbv iota;
      repeat match goal with
             | |- context [Rlt_dec ?a ?b] => destruct (Rlt_dec a b)
             | |- context [Rle_dec ?a ?b] => destruct (Rle_dec a b)
             end;
      try reflexivity; exfalso; lra.
  - assert (H7 : 7 <= INR n).
    { replace 7 with (INR 7) by (simpl; lra). apply le_INR. lia. }
    assert (Hlt : 10000 / INR n < 1500).
    { apply Rmult_lt_reg_r with (INR n); [lra |].
      replace (10000 / INR n * INR n) with 10000 by (field; lra). lra. }
    destruct (Rlt_dec (10000 / INR n) 1500); [| contradiction].
    destruct n as [| [| [| [| [| [| [| n]]]]]]]; try lia. reflexivity.
Qed.

Lemma equal_firms_level_witness :
  exists H, calculate_hhi (PyList (repeat 25 4)) = Ok H /\
    concentration_level H = "Moderately Concentrated"%string.
Proof.
  apply (@equal_firms_level 25 4); [lra | lia].
Defined.

End Level.

(** X13.  In binary64 a [nan] index (the outcome of an infinite entry) fails
    both comparisons of the driver and is labelled "Highly Concentrated". *)
Theorem nan_index_level (h : float) :
  PrimFloat.is_nan h = true ->
  concentration_level h = "Highly Concentrated"%string.
Proof.
  intros Hnan. unfold concentration_level.
  cbn [less leb b64_ext Binary64.arith].
  rewrite ltb_spec, leb_spec.
  assert (E : Prim2SF h = S754_nan) by (unfold Prim2SF; rewrite Hnan; reflexivity).
  rewrite E. reflexivity.
Qed.

Lemma nan_index_level_witness :
  exists h, calculate_hhi (PyList [infinity]) = Ok h /\
            concentration_level h = "Highly Concentrated"%string.
Proof.
  exists nan. split; [vm_compute; reflexivity |].
  apply nan_index_level. reflexivity.
Defined.

(** ** Relativistic kinematics: the energy-momentum relation *)

Section RelativisticMore.

Local Open Scope R_scope.

(** All three fields of the record, on every real input. *)
Lemma calculate_relativistic_properties_fields (e : R) :
  exists p, calculate_relativistic_properties e = Ok p /\
    gamma p = e * 1000 / rest_mev /\
    beta p = (if Rle_dec (gamma p) 1 then 0
              else R_sqrt.sqrt (1 - 1 / (gamma p * gamma p))) /\
    momentum_mevc p = gamma p * rest_mev * beta p.
Proof.
  unfold calculate_relativistic_properties.
  rewrite E_REST_MEV_exact. simpl bind. rewrite exact_truediv.
  pose proof rest_mev_pos as Hr.
  destruct (Req_dec_T rest_mev 0); [lra |]. simpl bind.
  rewrite beta_of_gamma_exact. simpl bind.
  eexists. split; [reflexivity |].
  cbn [gamma beta momentum_mevc mul lit Exact.arith].
  rewrite lit_1000_0. repeat split; reflexivity.
Qed.

(** X14.  Above the rest energy ([energy_gev * 1000 > E_REST_MEV]) the
    function returns fields tied to the input by the relations its formulas
    come from: [gamma * E_REST_MEV] is the energy in MeV, with [gamma > 1];
    [gamma^2 * (1 - beta^2) = 1]; and
    [momentum^2 + rest^2 = energy^2], so that [0 < momentum < energy]. *)
Theorem energy_momentum_exact (energy_gev : R) :
  rest_mev < energy_gev * 1000 ->
  exists p, calculate_relativistic_properties energy_gev = Ok p /\
    gamma p * rest_mev = energy_gev * 1000 /\ 1 < gamma p /\
    gamma p * gamma p * (1 - beta p * beta p) = 1 /\
    momentum_mevc p * momentum_mevc p + rest_mev * rest_mev =
      energy_gev * 1000 * (energy_gev * 1000) /\
    0 < momentum_mevc p < energy_gev * 1000.
Proof.
  intros Hrest.
  destruct (calculate_relativistic_properties_fields energy_gev)
    as (p & E & G & B & M).
  exists p. split; [exact E |].
  pose proof rest_mev_pos as Hr.
  assert (HE : gamma p * rest_mev = energy_gev * 1000).
  { rewrite G. field. lra. }
  assert (Hg : 1 < gamma p).
  { apply Rmult_lt_reg_r with rest_mev; [exact Hr |]. lra. }
  destruct (Rle_dec (gamma p) 1) as [Hle | _]; [lra |].
  destruct (@radicand_bounds (gamma p) Hg) as [Hx0 Hx1].
  assert (Hbb : beta p * beta p = 1 - 1 / (gamma p * gamma p)).
  { rewrite B. apply sqrt_sqrt. lra. }
  assert (Hb0 : 0 < beta p).
  { rewrite B. apply sqrt_lt_R0. exact Hx0. }
  assert (Hgg : gamma p * gamma p <> 0) by nra.
  assert (H1 : gamma p * gamma p * (1 - beta p * beta p) = 1).
  { rewrite Hbb. field. lra. }
  assert (Hb1 : beta p < 1) by nra.
  assert (HEpos : 0 < energy_gev * 1000) by nra.
  split; [exact HE | split; [exact Hg | split; [exact H1 | split; [| split]]]].
  - rewrite M, <- HE.
    replace (gamma p * rest_mev * beta p * (gamma p * rest_mev * beta p))
      with (rest_mev * rest_mev * (gamma p * gamma p * (beta p * beta p)))
      by ring.
    replace (gamma p * gamma p * (beta p * beta p))
      with (gamma p * gamma p - 1) by lra.
    ring.
  - rewrite M, HE. apply Rmult_lt_0_compat; assumption.
  - rewrite M, HE. nra.
Qed.

Lemma energy_momentum_exact_witness :
  exists p, calculate_relativistic_properties 10 = Ok p /\
    gamma p * rest_mev = 10 * 1000 /\ 1 < gamma p /\
    gamma p * gamma p * (1 - beta p * beta p) = 1 /\
    momentum_mevc p * momentum_mevc p + rest_mev * rest_mev =
      10 * 1000 * (10 * 1000) /\
    0 < momentum_mevc p < 10 * 1000.
Proof.
  pose proof rest_mev_bounds as Hb.
  apply energy_momentum_exact. lra.
Defined.

End RelativisticMore.

(** ** Space-charge-limited current *)

Section Limit.

Local Open Scope R_scope.

Lemma lit_9_0 : Exact.lit 9.0 = 9.
Proof. apply (exact_lit_point_zero _ 9); reflexivity. Qed.

Lemma lit_1_5 : Exact.lit 1.5 = 15 / 10.
Proof. apply exact_lit_ratio; reflexivity. Qed.

Lemma perveance_pos : 0 < perveance.
Proof.
  destruct constants_pos as (He & Hm & Heps & Hc). unfold perveance.
  apply Rmult_lt_0_compat.
  - apply Rmult_lt_0_compat; lra.
  - apply sqrt_lt_R0. apply Rdiv_lt_0_compat; lra.
Qed.

(** The outcome for a non-negative voltage: a [ZeroDivisionError] for a zero
    gap, and otherwise [K * V^1.5 * A / d^2]. *)
Lemma calculate_space_charge_limit_exact (V d A : R) :
  0 <= V ->
  calculate_space_charge_limit V d A =
  if Req_dec_T d 0 then Raise ZeroDivisionError
  else Ok (perveance * (if Rlt_dec 0 V then Rpower V (15 / 10) else 0)
           * (A / (d * d))).
Proof.
  intros HV. destruct constants_pos as (He & Hm & Heps & Hc).
  unfold calculate_space_charge_limit, E_CHARGE, E_MASS_KG, EPSILON_0.
  cbn [pow mul sqrt lit Exact.arith].
  rewrite lit_4_0, lit_9_0, lit_2, lit_1_5, !exact_truediv.
  destruct (Req_dec_T 9 0); [lra |]. simpl bind.
  destruct (Req_dec_T (Exact.lit 9.10938356e-31) 0); [lra |]. simpl bind.
  assert (EV : Exact.pow V (15 / 10) =
               Ok (if Rlt_dec 0 V then Rpower V (15 / 10) else 0)).
  { unfold Exact.pow. destruct (Rlt_dec 0 V); [reflexivity |].
    destruct (Req_dec_T V 0); [| lra].
    destruct (Rlt_dec 0 (15 / 10)); [reflexivity | lra]. }
  rewrite EV. simpl bind. rewrite exact_pow_2. simpl bind.
  rewrite exact_truediv.
  destruct (Req_dec_T d 0) as [Hd | Hd].
  - destruct (Req_dec_T (d * d) 0) as [_ | Hdd]; [reflexivity |].
    exfalso. apply Hdd. rewrite Hd. ring.
  - destruct (Req_dec_T (d * d) 0) as [Hdd | _].
    { apply Rmult_integral in Hdd. tauto. }
    reflexivity.
Qed.

(** X15.  For a non-negative voltage the function raises
    [ZeroDivisionError] exactly when the electrode distance is zero, and
    returns a current for every other distance. *)
Theorem space_charge_limit_zero_gap (V d A : R) :
  0 <= V ->
  (calculate_space_charge_limit V d A = Raise ZeroDivisionError <-> d = 0) /\
  (d <> 0 -> exists i, calculate_space_charge_limit V d A = Ok i).
Proof.
  intros HV. rewrite calculate_space_charge_limit_exact by exact HV.
  destruct (Req_dec_T d 0) as [Hd | Hd].
  - split; [split; [intros _; exact Hd | reflexivity] | contradiction].
  - split; [split; [discriminate | contradiction] |].
    intros _. eexists. reflexivity.
Qed.

Lemma space_charge_limit_zero_gap_witness :
  calculate_space_charge_limit 50000 0 (1 / 10000) = Raise ZeroDivisionError /\
  exists i, calculate_space_charge_limit 50000 (5 / 100) (1 / 10000) = Ok i.
Proof.
  assert (HV : 0 <= 50000) by lra. split.
  - apply (proj1 (@space_charge_limit_zero_gap 50000 0 (1 / 10000) HV)).
    reflexivity.
  - apply (proj2 (@space_charge_limit_zero_gap 50000 (5 / 100) (1 / 10000) HV)).
    lra.
Defined.

Lemma Rpower_4_three_halves : Rpower 4 (15 / 10) = 8.
Proof.
  replace 4 with (Rpower 2 2) by (rewrite Rpower_2; lra).
  rewrite Rpower_mult. replace (2 * (15 / 10)) with 3 by lra.
  rewrite Rpower_3; lra.
Qed.

(** X16.  The scaling laws of the current, for a positive voltage and a
    non-zero distance: it is positive for a positive area, proportional to
    the area, inversely proportional to the square of the distance (doubling
    the gap divides it by 4), and grows as the power 1.5 of the voltage
    (quadrupling the voltage multiplies it by 8). *)
Theorem space_charge_limit_scaling (V d A k : R) :
  0 < V -> d <> 0 -> k <> 0 ->
  exists i, calculate_space_charge_limit V d A = Ok i /\
    (0 < A -> 0 < i) /\
    calculate_space_charge_limit V d (k * A) = Ok (k * i) /\
    calculate_space_charge_limit V (k * d) A = Ok (i / (k * k)) /\
    calculate_space_charge_limit V (2 * d) A = Ok (i / 4) /\
    calculate_space_charge_limit (4 * V) d A = Ok (8 * i).
Proof.
  intros HV Hd Hk. pose proof perveance_pos as HK.
  assert (Hkd : k * d <> 0)
    by (apply Rmult_integral_contrapositive; split; assumption).
  assert (H2d : 2 * d <> 0)
    by (apply Rmult_integral_contrapositive; split; [lra | assumption]).
  assert (Hdd : d * d <> 0)
    by (apply Rmult_integral_contrapositive; split; assumption).
  rewrite !calculate_space_charge_limit_exact by lra.
  destruct (Req_dec_T d 0); [contradiction |].
  destruct (Req_dec_T (k * d) 0); [contradiction |].
  destruct (Req_dec_T (2 * d) 0); [contradiction |].
  destruct (Rlt_dec 0 V); [| contradiction].
  destruct (Rlt_dec 0 (4 * V)); [| lra].
  pose proof (Rpower_pos V (15 / 10)) as HP.
  set (P := Rpower V (15 / 10)) in *.
  eexists. split; [reflexivity | split; [| split; [| split; [| split]]]].
  - intros HA. apply Rmult_lt_0_compat.
    + apply Rmult_lt_0_compat; assumption.
    + apply Rdiv_lt_0_compat; [exact HA |].
      destruct (Rtotal_order d 0) as [H | [H | H]]; [nra | contradiction | nra].
  - f_equal. field. exact Hd.
  - f_equal. field. split; assumption.
  - f_equal. field. exact Hd.
  - f_equal. rewrite <- Rpower_mult_distr by lra.
    rewrite Rpower_4_three_halves. fold P. ring.
Qed.

Lemma space_charge_limit_scaling_witness :
  exists i, calculate_space_charge_limit 50000 (5 / 100) (1 / 10000) = Ok i /\
    (0 < 1 / 10000 -> 0 < i) /\
    calculate_space_charge_limit 50000 (5 / 100) (3 * (1 / 10000))
      = Ok (3 * i) /\
    calculate_space_charge_limit 50000 (3 * (5 / 100)) (1 / 10000)
      = Ok (i / (3 * 3)) /\
    calculate_space_charge_limit 50000 (2 * (5 / 100)) (1 / 10000)
      = Ok (i / 4) /\
    calculate_space_charge_limit (4 * 50000) (5 / 100) (1 / 10000)
      = Ok (8 * i).
Proof.
  apply space_charge_limit_scaling; lra.
Defined.

End Limit.

(** ** The Gaussian beam profile *)

Section Gaussian.

Local Open Scope R_scope.

(** The profile on real arguments: [sigma ** 2] never raises there. *)
Lemma gaussian_exact (xs : list R) (a c s : R) :
  gaussian xs a c s =
  Ok (map (fun x => a * exp (- ((x - c) * (x - c)) / (2 * (s * s)))) xs).
Proof.
  unfold gaussian. cbn [pow mul sub div lit neg np_exp exact_ext exact_exp
                        Exact.arith].
  rewrite lit_2, exact_pow_2. reflexivity.
Qed.

Lemma exp_le_1 (u : R) : u <= 0 -> exp u <= 1.
Proof.
  intros [Hu | ->].
  - rewrite <- exp_0. left. apply exp_increasing. exact Hu.
  - rewrite exp_0. lra.
Qed.

Lemma gaussian_exponent_nonpos (d s : R) :
  s <> 0 -> - (d * d) / (2 * (s * s)) <= 0.
Proof.
  intros Hs. assert (Hss : 0 < 2 * (s * s)).
  { destruct (Rtotal_order s 0) as [H | [H | H]]; [nra | contradiction | nra]. }
  pose proof (Rle_0_sqr d) as Hd. unfold Rsqr in Hd.
  apply Rmult_le_reg_r with (2 * (s * s)); [exact Hss |].
  replace (- (d * d) / (2 * (s * s)) * (2 * (s * s))) with (- (d * d))
    by (field; lra).
  lra.
Qed.

(** X17.  For a non-zero [sigma] and a positive amplitude the profile has
    one value per position, every value is positive and at most the
    amplitude, and the amplitude is the value at the center. *)
Theorem gaussian_peak (xs : list R) (a c s : R) :
  s <> 0 -> 0 < a ->
  (exists ys, gaussian xs a c s = Ok ys /\ length ys = length xs /\
              Forall (fun y => 0 < y <= a) ys) /\
  gaussian [c] a c s = Ok [a].
Proof.
  intros Hs Ha. rewrite !gaussian_exact. split.
  - eexists. split; [reflexivity | split; [apply length_map |]].
    apply Forall_forall. intros y Hin. apply in_map_iff in Hin.
    destruct Hin as (x & <- & _).
    pose proof (exp_pos (- ((x - c) * (x - c)) / (2 * (s * s)))) as H0.
    pose proof (exp_le_1 (@gaussian_exponent_nonpos (x - c) s Hs)) as H1.
    split; nra.
  - simpl. do 2 f_equal.
    replace (- ((c - c) * (c - c)) / (2 * (s * s))) with 0
      by (unfold Rdiv; ring).
    rewrite exp_0. ring.
Qed.

Lemma gaussian_peak_witness :
  (exists ys, gaussian [0; 5; 10] 100 5 (12 / 10) = Ok ys /\
              length ys = length [0; 5; 10] /\
              Forall (fun y => 0 < y <= 100) ys) /\
  gaussian [5] 100 5 (12 / 10) = Ok [100].
Proof.
  apply gaussian_peak; lra.
Defined.

(** X18.  The profile is symmetric about its center, and [sigma] is the
    distance from the center at which it has fallen to [exp(-1/2)] of the
    amplitude. *)
Theorem gaussian_symmetric (ds : list R) (a c s : R) :
  s <> 0 ->
  gaussian (map (fun d => c + d) ds) a c s =
    gaussian (map (fun d => c - d) ds) a c s /\
  gaussian [c - s; c + s] a c s = Ok [a * exp (- (1 / 2)); a * exp (- (1 / 2))].
Proof.
  intros Hs. rewrite !gaussian_exact. split.
  - f_equal. rewrite !map_map. apply map_ext. intros d.
    do 2 f_equal. f_equal. ring.
  - simpl. f_equal. f_equal; [| f_equal]; do 2 f_equal; field; exact Hs.
Qed.

Lemma gaussian_symmetric_witness :
  gaussian (map (fun d => 5 + d) [1; 2]) 100 5 (12 / 10) =
    gaussian (map (fun d => 5 - d) [1; 2]) 100 5 (12 / 10) /\
  gaussian [5 - 12 / 10; 5 + 12 / 10] 100 5 (12 / 10) =
    Ok [100 * exp (- (1 / 2)); 100 * exp (- (1 / 2))].
Proof.
  apply gaussian_symmetric. lra.
Defined.

End Gaussian.
